(** * autoclip/crop.py: vertical 9:16 crop planning

    A shallow embedding of [scripts/autoclip/crop.py] and theorems about
    its geometry utilities, the two crop planners and the mode selector.

    Conventions of the embedding:
    - Python [int] values are [Z].
    - Python [float] values are rationals [Q] and their arithmetic is exact:
      rounding error, infinities and NaN of IEEE doubles are outside the
      model.  Equality of such values is [Qeq] ([==]).
    - [int(x)] on a float is truncation toward zero ([py_int]);
      [round(x)] is round-half-to-even ([py_round]).
    - The video decoder, the face detection model, the optical-flow
      estimator and the ffmpeg sink are external: a video is the list of its
      frames, the detector and the estimator are functions given to the
      planners, and the sink accepts every frame. *)

From Stdlib Require Import Bool String.
From Stdlib Require Import ZArith QArith Qround Qabs Qminmax.
From Stdlib Require Import List Lia Lqa.
Import ListNotations.

Open Scope Z_scope.

(** ** Python numerics *)

Module Py.

(** [int(q)] for a float [q]: truncation toward zero. *)
Definition py_int (q : Q) : Z :=
  if Qle_bool 0 q then Qfloor q else Qceiling q.

(** [round(q)]: nearest integer, ties to the even one. *)
Definition py_round (q : Q) : Z :=
  let f := Qfloor q in
  match ((q - inject_Z f) ?= (1 # 2))%Q with
  | Lt => f
  | Gt => f + 1
  | Eq => if Z.even f then f else f + 1
  end.

(** [a / b] on two ints (true division). *)
Definition truediv (a b : Z) : Q := (inject_Z a / inject_Z b)%Q.

(** Errors are [RuntimeError] messages. *)
Inductive result (A : Type) : Type :=
| Ok (a : A)
| Raise (msg : string).
Arguments Ok {A} a.
Arguments Raise {A} msg.

Definition bind {A B} (r : result A) (k : A -> result B) : result B :=
  match r with
  | Ok a => k a
  | Raise m => Raise m
  end.

End Py.
Import Py.

Notation "x <- c ;; k" := (bind c (fun x => k))
  (at level 61, c at next level, right associativity).

(** A type with Python's [max] and [min]; [clamp] is used on ints and on
    floats alike. *)
Class PyOrd (A : Type) := { pmax : A -> A -> A; pmin : A -> A -> A }.

#[export] Instance PyOrd_Z : PyOrd Z := {| pmax := Z.max; pmin := Z.min |}.
#[export] Instance PyOrd_Q : PyOrd Q := {| pmax := Qmax; pmin := Qmin |}.

(** ** Constants *)

Definition DETECTION_MAX_WIDTH : Z := 640.
Definition MIN_FACE_AREA_RATIO : Q := 1 # 1000.
Definition MIN_FACE_SCORE : Q := 1 # 2.
Definition GROUP_FACE_AREA_RATIO : Q := 6 # 10.
Definition GROUP_MAX_SPAN_RATIO : Q := 9 # 10.
Definition MISSING_FACE_SECONDS : Q := 2.
Definition DEFAULT_FPS : Q := 30.

(** ** Geometry utilities *)

Definition clamp {A} `{PyOrd A} (value min_value max_value : A) : A :=
  pmax min_value (pmin value max_value).

Definition ensure_valid_dimensions (width height : Z) : result unit :=
  if (width <? 2) || (height <? 2)
  then Raise "Invalid video dimensions"
  else Ok tt.

(** ** Target geometry *)

(** Lines 249-258 of [crop_face_tracking]. *)
Definition face_target_size (width height : Z) : result (Z * Z) :=
  let target_height := height in
  let target_width := py_int (truediv (target_height * 9) 16) in
  let target_width := if target_width >? width then width else target_width in
  let target_width := target_width - target_width mod 2 in
  let target_height := target_height - target_height mod 2 in
  if (target_width <? 2) || (target_height <? 2)
  then Raise "Invalid crop size"
  else Ok (target_width, target_height).

(** Lines 378-385 of [crop_screen_tracking]: the same without the cap at the
    source width. *)
Definition screen_target_size (width height : Z) : result (Z * Z) :=
  let target_height := height in
  let target_width := py_int (truediv (target_height * 9) 16) in
  let target_width := target_width - target_width mod 2 in
  let target_height := target_height - target_height mod 2 in
  if (target_width <? 2) || (target_height <? 2)
  then Raise "Invalid crop size"
  else Ok (target_width, target_height).

Definition face_geometry (width height : Z) : result (Z * Z) :=
  _ <- ensure_valid_dimensions width height ;;
  face_target_size width height.

Definition screen_geometry (width height : Z) : result (Z * Z) :=
  _ <- ensure_valid_dimensions width height ;;
  screen_target_size width height.

Definition round_down_even (n : Z) : Z := n - n mod 2.

(** ** Face boxes *)

(** [FaceBox = Tuple[int, int, int, int, float]]: (x, y, w, h, score). *)
Record FaceBox : Type := mkFace {
  box_x : Z;
  box_y : Z;
  box_w : Z;
  box_h : Z;
  box_score : Q
}.

Definition face_area (face : FaceBox) : Z := box_w face * box_h face.

Definition Qlt_bool (a b : Q) : bool := negb (Qle_bool b a).

(** One iteration of the loop of [normalize_faces] (lines 73-82); the four
    coordinates are ints, so [int(clamp(...))] is the clamp itself. *)
Definition normalize_step (frame_width frame_height : Z) (min_area : Q)
    (normalized : list FaceBox) (face : FaceBox) : list FaceBox :=
  let '(mkFace x y w h score) := face in
  if Qlt_bool score MIN_FACE_SCORE then normalized
  else
    let x := clamp x 0 (frame_width - 1) in
    let y := clamp y 0 (frame_height - 1) in
    let w := clamp w 1 (frame_width - x) in
    let h := clamp h 1 (frame_height - y) in
    if Qlt_bool (inject_Z (w * h)) min_area then normalized
    else normalized ++ [mkFace x y w h score].

Definition normalize_faces (faces : list FaceBox) (frame_width frame_height : Z)
    : list FaceBox :=
  let min_area := (inject_Z (frame_width * frame_height) * MIN_FACE_AREA_RATIO)%Q in
  fold_left (normalize_step frame_width frame_height min_area) faces [].

(** [sorted(faces, key=face_area, reverse=True)]: a stable sort, largest area
    first, boxes of equal area in their original order. *)
Fixpoint insert_by_area (face : FaceBox) (sorted : list FaceBox) : list FaceBox :=
  match sorted with
  | [] => [face]
  | g :: rest =>
      if face_area g <=? face_area face then face :: g :: rest
      else g :: insert_by_area face rest
  end.

Definition sorted_by_area (faces : list FaceBox) : list FaceBox :=
  fold_right insert_by_area [] faces.

(** [min(e for e in l)] and [max(e for e in l)] on a non-empty sequence
    whose first element is [a]. *)
Definition py_min_list (a : Z) (l : list Z) : Z := fold_left Z.min l a.
Definition py_max_list (a : Z) (l : list Z) : Z := fold_left Z.max l a.

(** Lines 155-167: the centre of the group of large faces, when there is
    one and it fits. *)
Definition group_center (faces_sorted : list FaceBox) (target_width : Z)
    : option Z :=
  match faces_sorted with
  | top :: _ :: _ =>
      let top_area := face_area top in
      let group :=
        filter (fun face =>
                  Qle_bool (inject_Z top_area * GROUP_FACE_AREA_RATIO)
                           (inject_Z (face_area face)))
               faces_sorted in
      match group with
      | g0 :: _ :: _ =>
          let min_x := py_min_list (box_x g0) (map box_x (tl group)) in
          let max_x :=
            py_max_list (box_x g0 + box_w g0)
                        (map (fun face => box_x face + box_w face) (tl group)) in
          let span := max_x - min_x in
          if Qle_bool (inject_Z span) (inject_Z target_width * GROUP_MAX_SPAN_RATIO)
          then Some (py_int (truediv (min_x + max_x) 2))
          else None
      | _ => None
      end
  | _ => None
  end.

(** One iteration of the scoring loop (lines 176-183); the accumulator is
    [(best_score, best_center)]. *)
Definition score_step (prev_center : Q) (frame_width frame_area : Z)
    (acc : Q * option Q) (face : FaceBox) : Q * option Q :=
  let '(best_score, best_center) := acc in
  let '(mkFace x y w h score) := face in
  let center := (inject_Z x + truediv w 2)%Q in
  let area_ratio := truediv (w * h) frame_area in
  let distance_ratio := (Qabs (center - prev_center) / inject_Z frame_width)%Q in
  let total := (area_ratio - distance_ratio * (2 # 10) + score * (1 # 100))%Q in
  if Qlt_bool best_score total then (total, Some center)
  else (best_score, best_center).

Definition pick_face_center (faces : list FaceBox) (prev_center : option Q)
    (frame_width frame_height target_width : Z) : option Z :=
  match faces with
  | [] => None
  | _ :: _ =>
      let faces_sorted := sorted_by_area faces in
      match group_center faces_sorted target_width with
      | Some c => Some c
      | None =>
          match prev_center with
          | None =>
              match faces_sorted with
              | best :: _ =>
                  Some (py_int (inject_Z (box_x best) + truediv (box_w best) 2)%Q)
              | [] => None
              end
          | Some prev =>
              let frame_area := frame_width * frame_height in
              let '(_, best_center) :=
                fold_left (score_step prev frame_width frame_area) faces_sorted
                          ((-1000000000)%Q, None) in
              option_map py_int best_center
          end
      end
  end.

(** ** Frame source, detector, motion estimator *)

Section Planners.

(** A decoded frame; [frame_shape] is [(frame.shape[0], frame.shape[1])],
    rows first. *)
Variable Frame : Type.
Variable frame_shape : Frame -> Z * Z.

(** [FaceDetector.detect]: the boxes reported for a frame, in frame
    coordinates. *)
Variable detect : Frame -> list FaceBox.

(** The luma raster of a frame resized to [(scaled_width, scaled_height)]
    (lines 439-445), and the magnitude field
    [sqrt(flow[..., 0] ** 2 + flow[..., 1] ** 2)] of the dense optical flow
    between two of them (lines 447-450), as a list of rows. *)
Variable Gray : Type.
Variable to_gray : Z -> Z -> Frame -> Gray.
Variable flow_magnitude : Gray -> Gray -> list (list Q).

(** What [cv2.VideoCapture] gives once opened. *)
Record Video : Type := mkVideo {
  cap_width : Z;
  cap_height : Z;
  cap_fps : Q;
  cap_frame_count : Z;
  cap_frames : list Frame
}.

(** [resolve_fps]: the fallback replaces a rate that is zero or negative. *)
Definition resolve_fps (v : Video) : Q :=
  if Qle_bool (cap_fps v) 0 then DEFAULT_FPS else cap_fps v.

(** *** Mode selector *)

(** [np.linspace(0, stop, num, dtype=int)] for [num >= 1]. *)
Definition linspace_int (stop : Z) (num : Z) : list Z :=
  if num =? 1 then [0]
  else map (fun i => Qfloor (inject_Z (Z.of_nat i) * truediv stop (num - 1)))
           (seq 0 (Z.to_nat num)).

(** The centre of the largest usable face of a frame, if any
    (lines 207-212 and 221-225). *)
Definition sample_center (frame : Frame) : option Z :=
  let '(height, width) := frame_shape frame in
  match sorted_by_area (normalize_faces (detect frame) width height) with
  | [] => None
  | best :: _ => Some (py_int (inject_Z (box_x best) + truediv (box_w best) 2)%Q)
  end.

(** The [for idx in sample_indices] loop; [cap.set] then [cap.read] gives
    the frame of that index when there is one. *)
Fixpoint sample_at (frames : list Frame) (max_samples : Z)
    (indices : list Z) (centers : list Z) : list Z :=
  match indices with
  | [] => centers
  | idx :: rest =>
      match nth_error frames (Z.to_nat idx) with
      | None => sample_at frames max_samples rest centers
      | Some frame =>
          match sample_center frame with
          | None => sample_at frames max_samples rest centers
          | Some c =>
              let centers := centers ++ [c] in
              if Z.of_nat (length centers) >=? max_samples then centers
              else sample_at frames max_samples rest centers
          end
      end
  end.

(** The [while frame_count < max_samples] loop. *)
Fixpoint sample_first (frames : list Frame) (max_samples frame_count : Z)
    (centers : list Z) : list Z :=
  match frames with
  | [] => centers
  | frame :: rest =>
      if frame_count <? max_samples then
        let centers :=
          match sample_center frame with
          | Some c => centers ++ [c]
          | None => centers
          end in
        sample_first rest max_samples (frame_count + 1) centers
      else centers
  end.

(** [None] as input is a path that [cv2.VideoCapture] cannot open. *)
Definition detect_face_centers (video : option Video) (max_samples : Z)
    : list Z :=
  match video with
  | None => []
  | Some cap =>
      let total_frames := cap_frame_count cap in
      if total_frames >? 0 then
        let sample_count := Z.min max_samples total_frames in
        let sample_indices := linspace_int (total_frames - 1) sample_count in
        sample_at (cap_frames cap) max_samples sample_indices []
      else sample_first (cap_frames cap) max_samples 0 []
  end.

(** *** Face-tracking planner *)

(** Shape of [a[:rows, lo:hi]] for [0 <= rows], [0 <= lo <= hi]. *)
Definition slice_shape (shape : Z * Z) (rows lo hi : Z) : Z * Z :=
  let '(r, c) := shape in
  (Z.min rows r, Z.max 0 (Z.min hi c - Z.min lo c)).

(** The variables of the tracking loop, with two instruments: the shapes
    [(width, height)] of the frames written to the encoder, oldest first,
    and the number of calls of the detector. *)
Record FaceState : Type := mkFaceState {
  smoothed_center : Q;
  target_center : Q;
  missing_frames : Z;
  frame_idx : Z;
  frames_written : list (Z * Z);
  detect_calls : nat
}.

Record FaceConfig : Type := mkFaceConfig {
  fc_width : Z;
  fc_height : Z;
  fc_target_width : Z;
  fc_target_height : Z;
  fc_update_interval : Z;
  fc_smoothing : Q;
  fc_missing_threshold : Z
}.

Definition face_config (width height target_width target_height : Z) (fps : Q)
    : FaceConfig :=
  {| fc_width := width;
     fc_height := height;
     fc_target_width := target_width;
     fc_target_height := target_height;
     fc_update_interval := Z.max 1 (py_int (fps * (1 # 2)));
     fc_smoothing := Qmin (3 # 10) (Qmax (5 # 100) (5 / fps));
     fc_missing_threshold := py_int (fps * MISSING_FACE_SECONDS) |}.

Definition face_init (width : Z) : FaceState :=
  {| smoothed_center := truediv width 2;
     target_center := truediv width 2;
     missing_frames := 0;
     frame_idx := 0;
     frames_written := [];
     detect_calls := 0 |}.

(** Lines 325-336: the detection update, given what the detector reports. *)
Definition face_update (c : FaceConfig) (st : FaceState)
    (center : option Z) : Q * Z :=
  match center with
  | Some center => (inject_Z center, 0)
  | None =>
      let missing := missing_frames st + fc_update_interval c in
      if missing >=? fc_missing_threshold c
      then (truediv (fc_width c) 2, missing)
      else (target_center st, missing)
  end.

(** Lines 321-348: one iteration of the tracking loop.  [Qred] writes the
    new [smoothed_center] in lowest terms and leaves its value as it is. *)
Definition face_step (c : FaceConfig) (st : FaceState) (frame : Frame)
    : FaceState :=
  let width := fc_width c in
  let target_width := fc_target_width c in
  let target_height := fc_target_height c in
  let update := frame_idx st mod fc_update_interval c =? 0 in
  let '(target, missing) :=
    if update then
      let faces := normalize_faces (detect frame) width (fc_height c) in
      face_update c st
        (pick_face_center faces (Some (smoothed_center st)) width
                          (fc_height c) target_width)
    else (target_center st, missing_frames st) in
  let half_width := truediv target_width 2 in
  let target := clamp target half_width (inject_Z width - half_width)%Q in
  let smoothed :=
    Qred (smoothed_center st + (target - smoothed_center st) * fc_smoothing c) in
  let crop_x := py_round (smoothed - half_width) in
  let crop_x := clamp crop_x 0 (width - target_width) in
  let cropped :=
    slice_shape (frame_shape frame) target_height crop_x (crop_x + target_width) in
  let cropped :=
    if negb (snd cropped =? target_width) || negb (fst cropped =? target_height)
    then (target_height, target_width) else cropped in
  {| smoothed_center := smoothed;
     target_center := target;
     missing_frames := missing;
     frame_idx := frame_idx st + 1;
     frames_written := frames_written st ++ [(snd cropped, fst cropped)];
     detect_calls := if update then S (detect_calls st) else detect_calls st |}.

(** Lines 293-308: the passthrough loop, no detector. *)
Definition passthrough_step (target_width target_height : Z)
    (written : list (Z * Z)) (frame : Frame) : list (Z * Z) :=
  let resized := (target_height, target_width) in
  written ++ [(snd resized, fst resized)].

Record FaceRun : Type := mkFaceRun {
  run_written : list (Z * Z);
  run_detect_calls : nat;
  run_tracking : option FaceState
}.

Definition crop_face_tracking (video : option Video) : result FaceRun :=
  match video with
  | None => Raise "Unable to open video for face crop."
  | Some cap =>
      let width := cap_width cap in
      let height := cap_height cap in
      _ <- ensure_valid_dimensions width height ;;
      let fps := resolve_fps cap in
      size <- face_target_size width height ;;
      let '(target_width, target_height) := size in
      if width <=? target_width then
        let written :=
          fold_left (passthrough_step target_width target_height)
                    (cap_frames cap) [] in
        Ok {| run_written := written;
              run_detect_calls := 0;
              run_tracking := None |}
      else
        let c := face_config width height target_width target_height fps in
        let st := fold_left (face_step c) (cap_frames cap) (face_init width) in
        Ok {| run_written := frames_written st;
              run_detect_calls := detect_calls st;
              run_tracking := Some st |}
  end.

(** *** Motion-tracking (screen) planner *)

(** Lines 391-398: the size the source is scaled to. *)
Definition screen_scaled_size (width height target_width target_height : Z)
    : Z * Z :=
  let target_display_width := py_int (inject_Z width * (67 # 100)) in
  let scale := truediv target_width target_display_width in
  let scaled_width := py_int (inject_Z width * scale) in
  let scaled_height := py_int (inject_Z height * scale) in
  if scaled_height >? target_height then
    let scale := truediv target_height height in
    (py_int (inject_Z width * scale), py_int (inject_Z height * scale))
  else (scaled_width, scaled_height).

(** [magnitude > 2.0], and one entry of [magnitude * significant]. *)
Definition significant (m : Q) : bool := Qlt_bool 2 m.
Definition masked (m : Q) : Q := if significant m then m else 0%Q.

(** [np.any(significant)]. *)
Definition any_significant (magnitude : list (list Q)) : bool :=
  existsb (existsb significant) magnitude.

Fixpoint add_rows (a b : list Q) : list Q :=
  match a, b with
  | x :: a', y :: b' => (x + y)%Q :: add_rows a' b'
  | _, _ => []
  end.

(** [np.sum(magnitude * significant, axis=0)] for a field of
    [scaled_width] columns. *)
Definition col_motion (scaled_width : Z) (magnitude : list (list Q)) : list Q :=
  fold_left (fun acc row => add_rows acc (map masked row)) magnitude
            (repeat 0%Q (Z.to_nat scaled_width)).

Definition Qsum (l : list Q) : Q := fold_left Qplus l 0%Q.

(** [np.average(np.arange(n), weights=w)]. *)
Definition weighted_average (w : list Q) : Q :=
  (Qsum (map (fun jw => inject_Z (Z.of_nat (fst jw)) * snd jw)
             (combine (seq 0 (length w)) w))
   / Qsum w)%Q.

Record ScreenConfig : Type := mkScreenConfig {
  sc_target_width : Z;
  sc_scaled_width : Z;
  sc_scaled_height : Z;
  sc_update_interval : Z;
  sc_total_frames : Z
}.

(** The variables of the loop, and the [crop_x] of every frame written,
    oldest first. *)
Record ScreenState : Type := mkScreenState {
  smoothed_x : Z;
  prev_gray : option Gray;
  screen_frame_idx : Z;
  screen_crops : list Z
}.

Definition screen_init : ScreenState :=
  {| smoothed_x := 0; prev_gray := None; screen_frame_idx := 0;
     screen_crops := [] |}.

(** Lines 455-464: where the motion asks the window to go. *)
Definition motion_target_x (c : ScreenConfig) (col : list Q) : Z :=
  let motion_x := py_int (weighted_average col) in
  Z.max 0 (Z.min (motion_x - sc_target_width c / 2)
                 (sc_scaled_width c - sc_target_width c)).

(** Lines 447-465: the motion update of [smoothed_x]. *)
Definition motion_update (c : ScreenConfig) (smoothed : Z)
    (magnitude : list (list Q)) : Z :=
  if any_significant magnitude then
    let col := col_motion (sc_scaled_width c) magnitude in
    if Qlt_bool 0 (Qsum col) then
      let target_x := motion_target_x c col in
      py_int ((9 # 10) * inject_Z smoothed + (1 # 10) * inject_Z target_x)
    else smoothed
  else smoothed.

(** Lines 435-485: one iteration, up to the crop offset. *)
Definition screen_step (c : ScreenConfig) (st : ScreenState) (frame : Frame)
    : ScreenState :=
  let update := screen_frame_idx st mod sc_update_interval c =? 0 in
  let curr_gray := to_gray (sc_scaled_width c) (sc_scaled_height c) frame in
  let smoothed :=
    if update then
      match prev_gray st with
      | Some prev => motion_update c (smoothed_x st) (flow_magnitude prev curr_gray)
      | None => smoothed_x st
      end
    else smoothed_x st in
  let crop_x := smoothed in
  let crop_x := Z.max 0 (Z.min crop_x (sc_scaled_width c - sc_target_width c)) in
  {| smoothed_x := smoothed;
     prev_gray := if update then Some curr_gray else prev_gray st;
     screen_frame_idx := screen_frame_idx st + 1;
     screen_crops := screen_crops st ++ [crop_x] |}.

(** The [while True] loop with its two exits: end of stream, and
    [total_frames and frame_idx >= total_frames]. *)
Fixpoint screen_loop (c : ScreenConfig) (frames : list Frame)
    (st : ScreenState) : ScreenState :=
  match frames with
  | [] => st
  | frame :: rest =>
      let st := screen_step c st frame in
      if negb (sc_total_frames c =? 0)
         && (screen_frame_idx st >=? sc_total_frames c)
      then st
      else screen_loop c rest st
  end.

Definition screen_config (cap : Video) (target_width target_height : Z)
    : ScreenConfig :=
  let '(scaled_width, scaled_height) :=
    screen_scaled_size (cap_width cap) (cap_height cap)
                       target_width target_height in
  {| sc_target_width := target_width;
     sc_scaled_width := scaled_width;
     sc_scaled_height := scaled_height;
     sc_update_interval := Z.max 1 (py_int (resolve_fps cap));
     sc_total_frames := cap_frame_count cap |}.

Definition crop_screen_tracking (video : option Video) : result ScreenState :=
  match video with
  | None => Raise "Unable to open video for screen crop."
  | Some cap =>
      _ <- ensure_valid_dimensions (cap_width cap) (cap_height cap) ;;
      size <- screen_target_size (cap_width cap) (cap_height cap) ;;
      let '(target_width, target_height) := size in
      let c := screen_config cap target_width target_height in
      Ok (screen_loop c (cap_frames cap) screen_init)
  end.

(** *** Entry point *)

Inductive Mode : Type := Auto | FaceMode | ScreenMode.

Inductive Output : Type :=
| FaceOutput (r : FaceRun)
| ScreenOutput (r : ScreenState).

(** Lines 509-512. *)
Definition select_mode (mode : Mode) (input : option Video) : Mode :=
  match mode with
  | Auto =>
      match detect_face_centers input 12 with
      | [] => ScreenMode
      | _ :: _ => FaceMode
      end
  | m => m
  end.

(** [Raise] is the message written to stderr before [sys.exit(1)]. *)
Definition main (mode : Mode) (input : option Video) : result Output :=
  let planned :=
    match select_mode mode input with
    | FaceMode => r <- crop_face_tracking input ;; Ok (FaceOutput r)
    | _ => r <- crop_screen_tracking input ;; Ok (ScreenOutput r)
    end in
  match planned with
  | Ok out => Ok out
  | Raise msg => Raise ("crop_failed: " ++ msg)
  end.

End Planners.

Arguments mkVideo {Frame}.
Arguments cap_width {Frame}.
Arguments cap_height {Frame}.
Arguments cap_fps {Frame}.
Arguments cap_frame_count {Frame}.
Arguments cap_frames {Frame}.
Arguments resolve_fps {Frame}.
Arguments sample_center {Frame}.
Arguments sample_at {Frame}.
Arguments sample_first {Frame}.
Arguments detect_face_centers {Frame}.
Arguments face_step {Frame}.
Arguments passthrough_step {Frame}.
Arguments crop_face_tracking {Frame}.
Arguments mkScreenState {Gray}.
Arguments smoothed_x {Gray}.
Arguments prev_gray {Gray}.
Arguments screen_frame_idx {Gray}.
Arguments screen_crops {Gray}.
Arguments screen_init {Gray}.
Arguments screen_step {Frame Gray}.
Arguments screen_loop {Frame Gray}.
Arguments screen_config {Frame}.
Arguments crop_screen_tracking {Frame Gray}.
Arguments FaceOutput {Gray}.
Arguments ScreenOutput {Gray}.
Arguments select_mode {Frame}.
Arguments main {Frame} frame_shape detect {Gray}.

(** ** Statements about the target geometry *)

(** What a planner's geometry is said to be for a source of
    [width] x [height]: 9:16 of the height, capped at the source width, both
    sides rounded down to even, an error when a side falls below 2. *)
Definition capped_target_size (geometry : Z -> Z -> result (Z * Z))
    (width height : Z) : Prop :=
  match geometry width height with
  | Ok (target_width, target_height) =>
      target_width = round_down_even (Z.min (height * 9 / 16) width)
      /\ target_height = round_down_even height
      /\ Z.even target_width = true /\ Z.even target_height = true
      /\ 2 <= target_width <= width /\ 2 <= target_height <= height
  | Raise _ =>
      round_down_even (Z.min (height * 9 / 16) width) < 2
      \/ round_down_even height < 2
  end.

(** The same without the cap: nothing bounds the width by the source's. *)
Definition uncapped_target_size (geometry : Z -> Z -> result (Z * Z))
    (width height : Z) : Prop :=
  match geometry width height with
  | Ok (target_width, target_height) =>
      target_width = round_down_even (height * 9 / 16)
      /\ target_height = round_down_even height
      /\ Z.even target_width = true /\ Z.even target_height = true
      /\ 2 <= target_width /\ 2 <= target_height <= height
  | Raise _ =>
      round_down_even (height * 9 / 16) < 2 \/ round_down_even height < 2
  end.

(** ** Statements about [normalize_faces] *)

(** The box a raw box is to become: its corner brought to the nearest
    pixel of the frame, then each side made at least 1 and at most what is
    left of the frame from that corner; the score is kept. *)
Definition clamp_box (frame_width frame_height : Z) (face : FaceBox) : FaceBox :=
  let x := Z.max 0 (Z.min (box_x face) (frame_width - 1)) in
  let y := Z.max 0 (Z.min (box_y face) (frame_height - 1)) in
  let w := Z.max 1 (Z.min (box_w face) (frame_width - x)) in
  let h := Z.max 1 (Z.min (box_h face) (frame_height - y)) in
  mkFace x y w h (box_score face).

(** The raw boxes that are kept: confident enough, and large enough once
    clamped. *)
Definition usable (frame_width frame_height : Z) (face : FaceBox) : bool :=
  Qle_bool MIN_FACE_SCORE (box_score face)
  && Qle_bool (inject_Z (frame_width * frame_height) * MIN_FACE_AREA_RATIO)
              (inject_Z (face_area (clamp_box frame_width frame_height face))).

(** A non-empty box all of whose pixels [(px, py)] are pixels of the frame. *)
Definition inside_frame (frame_width frame_height : Z) (face : FaceBox) : Prop :=
  1 <= box_w face /\ 1 <= box_h face
  /\ forall px py,
       box_x face <= px < box_x face + box_w face ->
       box_y face <= py < box_y face + box_h face ->
       0 <= px < frame_width /\ 0 <= py < frame_height.

Definition normalized_box (frame_width frame_height : Z) (face : FaceBox) : Prop :=
  (MIN_FACE_SCORE <= box_score face)%Q
  /\ inside_frame frame_width frame_height face
  /\ (inject_Z (frame_width * frame_height) * MIN_FACE_AREA_RATIO
      <= inject_Z (face_area face))%Q.

(** ** Statements about [pick_face_center] *)

(** A face box of a [frame_width] x [frame_height] frame: a rectangle in
    the pixel coordinates of the frame, with a confidence that is not
    negative.  Every box returned by [normalize_faces] is one. *)
Definition box_of_frame (frame_width frame_height : Z) (face : FaceBox) : Prop :=
  0 <= box_x face /\ 0 <= box_w face /\ box_x face + box_w face <= frame_width
  /\ 0 <= box_y face /\ 0 <= box_h face /\ box_y face + box_h face <= frame_height
  /\ (0 <= box_score face)%Q.

(** A previous centre: none yet, or a position within the frame. *)
Definition center_of_frame (frame_width : Z) (prev_center : option Q) : Prop :=
  match prev_center with
  | None => True
  | Some p => (0 <= p <= inject_Z frame_width)%Q
  end.

(** The combined horizontal span of two boxes, and the condition that two
    boxes of equal, non-negative area fit a target together. *)
Definition pair_min_x (f1 f2 : FaceBox) : Z := Z.min (box_x f1) (box_x f2).
Definition pair_max_x (f1 f2 : FaceBox) : Z :=
  Z.max (box_x f1 + box_w f1) (box_x f2 + box_w f2).

Definition close_pair (f1 f2 : FaceBox) (target_width : Z) : Prop :=
  face_area f1 = face_area f2
  /\ 0 <= face_area f1
  /\ (inject_Z (pair_max_x f1 f2 - pair_min_x f1 f2)
      <= GROUP_MAX_SPAN_RATIO * inject_Z target_width)%Q.

(** ** Statements about the face-tracking planner *)

(** The interval [half_width, width - half_width] of line 339. *)
Definition center_range (c : FaceConfig) (x : Q) : Prop :=
  (truediv (fc_target_width c) 2 <= x
   <= inject_Z (fc_width c) - truediv (fc_target_width c) 2)%Q.

Definition centers_in_range (c : FaceConfig) (st : FaceState) : Prop :=
  center_range c (target_center st) /\ center_range c (smoothed_center st).

(** The number of update points among [seen] consecutive frames of which
    the first is one. *)
Definition update_points (interval : Z) (seen : nat) : Z :=
  (Z.of_nat seen + interval - 1) / interval.

(** The detector finds no usable face at any update point among [frames],
    whose first frame has index [first_idx]. *)
Definition empty_update_points {Frame : Type} (detect : Frame -> list FaceBox)
    (c : FaceConfig) (first_idx : Z) (frames : list Frame) : Prop :=
  forall k frame,
    nth_error frames k = Some frame ->
    (first_idx + Z.of_nat k) mod fc_update_interval c = 0 ->
    normalize_faces (detect frame) (fc_width c) (fc_height c) = [].

(** After [n] consecutive empty update points that started from state
    [st], [st'] has counted [n] more intervals, and its target is the frame
    midpoint if an update happened and the count has reached [threshold],
    the target of [st] otherwise. *)
Definition recentered_at (threshold : Z) (c : FaceConfig)
    (st st' : FaceState) (n : Z) : Prop :=
  let missing := missing_frames st + n * fc_update_interval c in
  missing_frames st' = missing
  /\ (target_center st'
      == if (1 <=? n) && (threshold <=? missing)
         then truediv (fc_width c) 2
         else target_center st)%Q.

(** ** Statements about the motion-tracking planner *)

(** No motion field computed by the pass has a pixel of significant
    motion: the loop is followed from the frame of index [idx] with stored
    luma [prev], and at every update point that has a previous luma the
    field between the two is required to have nothing above 2.0. *)
Fixpoint quiet_from {Frame Gray : Type} (to_gray : Z -> Z -> Frame -> Gray)
    (flow_magnitude : Gray -> Gray -> list (list Q)) (c : ScreenConfig)
    (idx : Z) (prev : option Gray) (frames : list Frame) : Prop :=
  match frames with
  | [] => True
  | frame :: rest =>
      let cur := to_gray (sc_scaled_width c) (sc_scaled_height c) frame in
      let update := idx mod sc_update_interval c =? 0 in
      (if update then
         match prev with
         | Some p => any_significant (flow_magnitude p cur) = false
         | None => True
         end
       else True)
      /\ (if negb (sc_total_frames c =? 0) && (idx + 1 >=? sc_total_frames c)
          then True
          else quiet_from to_gray flow_magnitude c (idx + 1)
                          (if update then Some cur else prev) rest)
  end.

Definition quiet {Frame Gray : Type} (to_gray : Z -> Z -> Frame -> Gray)
    (flow_magnitude : Gray -> Gray -> list (list Q)) (c : ScreenConfig)
    (frames : list Frame) : Prop :=
  quiet_from to_gray flow_magnitude c 0 None frames.

(** A magnitude field has one value per column of the scaled frame in each
    of its rows. *)
Definition field_of_width (c : ScreenConfig) (magnitude : list (list Q)) : Prop :=
  Forall (fun row => length row = Z.to_nat (sc_scaled_width c)) magnitude.

(** The low-pass filter without any rounding: the new pan is exactly
    0.9 of the old one plus 0.1 of the target. *)
Definition exact_blend (old_x new_x target_x : Z) : Prop :=
  (inject_Z new_x == (9 # 10) * inject_Z old_x + (1 # 10) * inject_Z target_x)%Q.

(** ** Sample inputs *)

(** Frames that are the list of boxes the detector reports on them, all of
    1080 rows by 1920 columns. *)
Definition boxes_shape (frame : list FaceBox) : Z * Z := (1080, 1920).
Definition boxes_detect (frame : list FaceBox) : list FaceBox := frame.

(** A 1920 x 1080 source at 12.375 frames per second: update interval 6,
    missing threshold int(24.75) = 24.  One face centred at x = 1000 on
    frame 0, then no face. *)
Definition slow_config : FaceConfig := face_config 1920 1080 606 1080 (99 # 8).

Definition face_then_nothing (empty_frames : nat) : list (list FaceBox) :=
  [mkFace 850 400 300 300 (9 # 10)] :: repeat [] empty_frames.

Definition slow_state (empty_frames : nat) : FaceState :=
  fold_left (face_step boxes_shape boxes_detect slow_config)
            (face_then_nothing empty_frames) (face_init 1920).

(** A 4 x 4 source at one frame per second, scaled to 4 x 4 with a target
    2 wide, and an estimator that reports one pixel of magnitude 3 in the
    last column. *)
Definition tiny_config : ScreenConfig :=
  screen_config (mkVideo 4 4 1 3 [tt; tt; tt]) 2 4.

Definition tiny_gray (scaled_width scaled_height : Z) (frame : unit) : unit := tt.

Definition corner_motion (prev cur : unit) : list (list Q) :=
  [[0; 0; 0; 3]; [0; 0; 0; 0]; [0; 0; 0; 0]; [0; 0; 0; 0]]%Q.

Definition no_motion (prev cur : unit) : list (list Q) :=
  [[0; 0; 0; 0]; [0; 0; 0; 0]; [0; 0; 0; 0]; [0; 0; 0; 0]]%Q.

(** A 606 x 1080 source of two frames: already 9:16, so not wider than its
    target. *)
Definition narrow_video : Video (list FaceBox) := mkVideo 606 1080 30 2 [[]; []].

(** ** Further statements about [pick_face_center] *)

(** [x + w / 2] of line 177, and the [total] of line 180 for a box, given
    the previous centre, the frame width and [frame_area]. *)
Definition box_center (face : FaceBox) : Q :=
  (inject_Z (box_x face) + truediv (box_w face) 2)%Q.

Definition box_total (prev_center : Q) (frame_width frame_area : Z)
    (face : FaceBox) : Q :=
  (truediv (box_w face * box_h face) frame_area
   - Qabs (box_center face - prev_center) / inject_Z frame_width * (2 # 10)
   + box_score face * (1 # 100))%Q.

(** A box that out-scores every other box of the list by more than a
    margin far above the rounding of the totals; the scores are
    confidences, at most 1. *)
Definition SCORE_MARGIN : Q := 1 # 1000000000.

Definition clear_winner (prev_center : Q) (frame_width frame_height : Z)
    (faces : list FaceBox) (best : FaceBox) : Prop :=
  In best faces
  /\ forall g, In g faces ->
       (box_score g <= 1)%Q
       /\ (g = best
           \/ (box_total prev_center frame_width (frame_width * frame_height) g
               + SCORE_MARGIN
               < box_total prev_center frame_width
                           (frame_width * frame_height) best)%Q).

(** ** The detector wrapper *)

(** [resize_for_detection] on the shape [(height, width)] of the frame: the
    shape of the frame handed to the detection model, and the scale. *)
Definition resize_for_detection (shape : Z * Z) (max_width : Z) : (Z * Z) * Q :=
  let '(height, width) := shape in
  if width <=? max_width then (shape, 1%Q)
  else
    let scale := truediv max_width width in
    ((py_int (inject_Z height * scale), py_int (inject_Z width * scale)), scale).

(** [self.kind]. *)
Inductive DetectorKind : Type := MediapipeKind | HaarKind.

(** A mediapipe detection: its [relative_bounding_box] and the first of its
    scores, if it has any. *)
Record RelativeBox : Type := mkRelativeBox {
  rel_xmin : Q;
  rel_ymin : Q;
  rel_width : Q;
  rel_height : Q;
  rel_score : option Q
}.

Module FaceDetector.

Section Detect.

Variable Frame : Type.
Variable frame_shape : Frame -> Z * Z.

(** The two detection models, run on a frame resized to a shape:
    [results.detections] of mediapipe (empty when there is none), and the
    rectangles of the Haar cascade. *)
Variable mediapipe_process : Frame -> Z * Z -> list RelativeBox.
Variable detectMultiScale : Frame -> Z * Z -> list (Z * Z * Z * Z).

(** Lines 109-114. *)
Definition of_relative (width height : Z) (d : RelativeBox) : FaceBox :=
  mkFace (py_int (rel_xmin d * inject_Z width))
         (py_int (rel_ymin d * inject_Z height))
         (py_int (rel_width d * inject_Z width))
         (py_int (rel_height d * inject_Z height))
         (match rel_score d with Some s => s | None => 1%Q end).

(** Line 121. *)
Definition of_rectangle (r : Z * Z * Z * Z) : FaceBox :=
  let '(x, y, w, h) := r in mkFace x y w h 1.

(** Lines 124-133: back to the coordinates of the frame. *)
Definition unscale (scale : Q) (face : FaceBox) : FaceBox :=
  mkFace (py_int (inject_Z (box_x face) / scale))
         (py_int (inject_Z (box_y face) / scale))
         (py_int (inject_Z (box_w face) / scale))
         (py_int (inject_Z (box_h face) / scale))
         (box_score face).

Definition detect (kind : DetectorKind) (frame : Frame) : list FaceBox :=
  let '(resized, scale) :=
    resize_for_detection (frame_shape frame) DETECTION_MAX_WIDTH in
  let '(height, width) := resized in
  let faces :=
    match kind with
    | MediapipeKind =>
        map (of_relative width height) (mediapipe_process frame resized)
    | HaarKind => map of_rectangle (detectMultiScale frame resized)
    end in
  if negb (Qeq_bool scale 1) then map (unscale scale) faces else faces.

End Detect.

End FaceDetector.

Arguments FaceDetector.detect {Frame}.

(** A rectangle with non-negative sides within a [width] x [height]
    raster. *)
Definition rect_within (width height : Z) (face : FaceBox) : Prop :=
  0 <= box_x face /\ 0 <= box_w face /\ box_x face + box_w face <= width
  /\ 0 <= box_y face /\ 0 <= box_h face /\ box_y face + box_h face <= height.

(** A relative bounding box within the unit square. *)
Definition relative_within (d : RelativeBox) : Prop :=
  (0 <= rel_xmin d /\ 0 <= rel_width d /\ rel_xmin d + rel_width d <= 1
   /\ 0 <= rel_ymin d /\ 0 <= rel_height d /\ rel_ymin d + rel_height d <= 1)%Q.

(** ** Further statements about the mode selector *)

(** The detector reports, on the frame, at least one box that
    [normalize_faces] keeps. *)
Definition has_usable_face {Frame : Type} (frame_shape : Frame -> Z * Z)
    (detect : Frame -> list FaceBox) (frame : Frame) : Prop :=
  normalize_faces (detect frame) (snd (frame_shape frame))
                  (fst (frame_shape frame)) <> [].

(** ** Further statements about the planners *)

(** Lines 341-342: the left edge of the crop for a smoothed centre. *)
Definition face_crop_x (c : FaceConfig) (smoothed : Q) : Z :=
  let half_width := truediv (fc_target_width c) 2 in
  let crop_x := py_round (smoothed - half_width) in
  clamp crop_x 0 (fc_width c - fc_target_width c).


(** The video of [slow_state], and the run the face planner makes of it. *)
Definition slow_video (empty_frames : nat) : Video (list FaceBox) :=
  mkVideo 1920 1080 (99 # 8) (Z.of_nat (S empty_frames))
          (face_then_nothing empty_frames).

Definition slow_run (empty_frames : nat) : FaceRun :=
  {| run_written := frames_written (slow_state empty_frames);
     run_detect_calls := detect_calls (slow_state empty_frames);
     run_tracking := Some (slow_state empty_frames) |}.

(** The pan and the recorded crops of the screen planner are within
    [0, max(0, scaled_width - target_width)]. *)
Definition pan_in_range {Gray : Type} (c : ScreenConfig)
    (st : ScreenState Gray) : Prop :=
  let bound := Z.max 0 (sc_scaled_width c - sc_target_width c) in
  0 <= smoothed_x st <= bound
  /\ Forall (fun x => 0 <= x <= bound) (screen_crops st).
(** * Numeric lemmas *)

Lemma Qlt_bool_iff (a b : Q) : Qlt_bool a b = true <-> (a < b)%Q.
Proof.
  unfold Qlt_bool. rewrite negb_true_iff.
  split; intros H.
  - apply Qnot_le_lt. intros Hle. apply Qle_bool_iff in Hle. congruence.
  - destruct (Qle_bool b a) eqn:E; [|reflexivity].
    apply Qle_bool_iff in E. exfalso. eapply Qlt_not_le; eauto.
Qed.

Lemma inject_Z_nonneg (z : Z) : 0 <= z -> (0 <= inject_Z z)%Q.
Proof. intros H. unfold Qle; simpl. lia. Qed.

Lemma inject_Z_pos (z : Z) : 0 < z -> (0 < inject_Z z)%Q.
Proof. intros H. unfold Qlt; simpl. lia. Qed.

Lemma Qfloor_truediv (a b : Z) : 0 < b -> Qfloor (truediv a b) = a / b.
Proof.
  intros Hb. destruct b as [|p|p]; try lia.
  unfold truediv, Qdiv, Qinv, Qmult, Qfloor; simpl.
  now rewrite Z.mul_1_r.
Qed.

Lemma truediv_nonneg (a b : Z) : 0 <= a -> 0 < b -> (0 <= truediv a b)%Q.
Proof.
  intros Ha Hb. destruct b as [|p|p]; try lia.
  unfold truediv, Qdiv, Qinv, Qmult, Qle; simpl. lia.
Qed.

Lemma py_int_nonneg (q : Q) : (0 <= q)%Q -> py_int q = Qfloor q.
Proof.
  intros H. unfold py_int. apply Qle_bool_iff in H. now rewrite H.
Qed.

Lemma py_int_truediv (a b : Z) : 0 <= a -> 0 < b -> py_int (truediv a b) = a / b.
Proof.
  intros Ha Hb. rewrite py_int_nonneg by now apply truediv_nonneg.
  now apply Qfloor_truediv.
Qed.

Lemma py_int_inject_Z (z : Z) : py_int (inject_Z z) = z.
Proof.
  unfold py_int. destruct (Qle_bool 0 (inject_Z z)).
  - apply Qfloor_Z.
  - apply Qceiling_Z.
Qed.

Lemma py_int_comp (p q : Q) : (p == q)%Q -> py_int p = py_int q.
Proof.
  intros H. unfold py_int.
  assert (Hb : Qle_bool 0 p = Qle_bool 0 q).
  { destruct (Qle_bool 0 p) eqn:Ep, (Qle_bool 0 q) eqn:Eq; try reflexivity.
    - apply Qle_bool_iff in Ep. rewrite H in Ep. apply Qle_bool_iff in Ep. congruence.
    - apply Qle_bool_iff in Eq. rewrite <- H in Eq. apply Qle_bool_iff in Eq. congruence. }
  rewrite Hb. destruct (Qle_bool 0 q).
  - now apply Qfloor_comp.
  - now apply Qceiling_comp.
Qed.

Lemma round_down_even_spec (n : Z) :
  Z.even (round_down_even n) = true /\ n - 1 <= round_down_even n <= n.
Proof.
  unfold round_down_even.
  pose proof (Z.mod_pos_bound n 2 ltac:(lia)) as Hm.
  pose proof (Z.div_mod n 2 ltac:(lia)) as Hd.
  split; [|lia].
  apply Z.even_spec. exists (n / 2). lia.
Qed.

Lemma py_int_within_one (q : Q) : (Qabs (inject_Z (py_int q) - q) < 1)%Q.
Proof.
  unfold py_int. apply Qabs_Qlt_condition.
  destruct (Qle_bool 0 q).
  - pose proof (Qfloor_le q) as H1. pose proof (Qlt_floor q) as H2.
    rewrite inject_Z_plus in H2. change (inject_Z 1) with 1%Q in H2.
    split; lra.
  - pose proof (Qle_ceiling q) as H1. pose proof (Qceiling_lt q) as H2.
    replace (Qceiling q - 1) with (Qceiling q + -1) in H2 by lia.
    rewrite inject_Z_plus in H2. change (inject_Z (-1)) with (-1 # 1)%Q in H2.
    split; lra.
Qed.

(** * Target geometry *)

Lemma nine_sixteenths (height : Z) :
  0 <= height -> py_int (truediv (height * 9) 16) = height * 9 / 16.
Proof. intros H. apply py_int_truediv; lia. Qed.

Lemma ensure_valid_dimensions_ok (width height : Z) :
  2 <= width -> 2 <= height -> ensure_valid_dimensions width height = Ok tt.
Proof.
  intros Hw Hh. unfold ensure_valid_dimensions.
  destruct (Z.ltb_spec width 2), (Z.ltb_spec height 2); simpl; try lia.
  reflexivity.
Qed.

Lemma face_target_size_capped (width height : Z) :
  2 <= width -> 2 <= height ->
  capped_target_size face_target_size width height.
Proof.
  intros Hw Hh. unfold capped_target_size, face_target_size.
  rewrite nine_sixteenths by lia.
  set (a := height * 9 / 16).
  assert (Hcap : (if a >? width then width else a) = Z.min a width).
  { destruct (Z.gtb_spec a width); lia. }
  rewrite Hcap. fold (round_down_even (Z.min a width)). fold (round_down_even height).
  destruct (round_down_even_spec (Z.min a width)) as [Ew Bw].
  destruct (round_down_even_spec height) as [Eh Bh].
  destruct (Z.ltb_spec (round_down_even (Z.min a width)) 2);
    destruct (Z.ltb_spec (round_down_even height) 2); simpl; try lia.
  repeat split; auto; lia.
Qed.

Lemma screen_target_size_uncapped (width height : Z) :
  2 <= height ->
  uncapped_target_size screen_target_size width height.
Proof.
  intros Hh. unfold uncapped_target_size, screen_target_size.
  rewrite nine_sixteenths by lia.
  set (a := height * 9 / 16).
  fold (round_down_even a). fold (round_down_even height).
  destruct (round_down_even_spec a) as [Ew Bw].
  destruct (round_down_even_spec height) as [Eh Bh].
  destruct (Z.ltb_spec (round_down_even a) 2);
    destruct (Z.ltb_spec (round_down_even height) 2); simpl; try lia.
  repeat split; auto; lia.
Qed.

(** C1, as amended: for a source of width >= 2 and height >= 2 the face
    planner's target is floor(height*9/16) capped at the source width and
    then rounded down to even, by the height rounded down to even; both are
    even, at least 2 (an error is raised otherwise) and at most the
    corresponding source side.  The screen planner computes the same
    without the cap: its target width is floor(height*9/16) rounded down to
    even, even and at least 2 or an error, and only its target height is
    bounded by the source. *)
Theorem target_geometry_of_planners (width height : Z) :
  2 <= width -> 2 <= height ->
  capped_target_size face_geometry width height
  /\ uncapped_target_size screen_geometry width height.
Proof.
  intros Hw Hh. split.
  - pose proof (face_target_size_capped width height Hw Hh) as H.
    unfold capped_target_size, face_geometry in *.
    now rewrite ensure_valid_dimensions_ok.
  - pose proof (screen_target_size_uncapped width height Hh) as H.
    unfold uncapped_target_size, screen_geometry in *.
    now rewrite ensure_valid_dimensions_ok.
Qed.

Lemma target_geometry_of_planners_witness :
  capped_target_size face_geometry 1920 1080
  /\ uncapped_target_size screen_geometry 1920 1080.
Proof. apply (target_geometry_of_planners 1920 1080); lia. Defined.

(** C1 as stated fails for the screen planner: a 2 x 100 source gets a
    56 x 100 target, wider than the source. *)
Lemma screen_target_wider_than_source :
  2 <= 2 /\ 2 <= 100
  /\ screen_geometry 2 100 = Ok (56, 100)
  /\ ~ capped_target_size screen_geometry 2 100.
Proof.
  split; [lia|]. split; [lia|]. split; [reflexivity|].
  unfold capped_target_size.
  replace (screen_geometry 2 100) with (@Ok (Z * Z) (56, 100)) by reflexivity.
  intros (_ & _ & _ & _ & [_ H] & _). lia.
Qed.

(** * Box normalisation *)

Lemma clamp_Z_bounds (v lo hi : Z) : lo <= hi -> lo <= clamp v lo hi <= hi.
Proof. unfold clamp; simpl. lia. Qed.

Lemma normalize_step_usable (fw fh : Z) (acc : list FaceBox) (face : FaceBox) :
  normalize_step fw fh (inject_Z (fw * fh) * MIN_FACE_AREA_RATIO) acc face
  = if usable fw fh face then acc ++ [clamp_box fw fh face] else acc.
Proof.
  destruct face as [x y w h score].
  unfold normalize_step, usable, clamp_box, face_area, Qlt_bool; simpl.
  destruct (Qle_bool MIN_FACE_SCORE score); simpl; [|reflexivity].
  now destruct (Qle_bool _ _).
Qed.

Lemma normalize_faces_from (fw fh : Z) (faces acc : list FaceBox) :
  fold_left (normalize_step fw fh (inject_Z (fw * fh) * MIN_FACE_AREA_RATIO)) faces acc
  = acc ++ map (clamp_box fw fh) (filter (usable fw fh) faces).
Proof.
  revert acc. induction faces as [|face faces IH]; intros acc; simpl.
  - now rewrite app_nil_r.
  - rewrite IH, normalize_step_usable.
    destruct (usable fw fh face); simpl; [|reflexivity].
    now rewrite <- app_assoc.
Qed.

Lemma normalize_faces_filter_map (faces : list FaceBox) (fw fh : Z) :
  normalize_faces faces fw fh = map (clamp_box fw fh) (filter (usable fw fh) faces).
Proof. unfold normalize_faces. now rewrite normalize_faces_from. Qed.

Lemma clamp_box_inside (fw fh : Z) (face : FaceBox) :
  1 <= fw -> 1 <= fh -> inside_frame fw fh (clamp_box fw fh face).
Proof.
  intros Hw Hh. unfold inside_frame, clamp_box; cbn [box_x box_y box_w box_h].
  repeat split; lia.
Qed.

Lemma usable_normalized (fw fh : Z) (face : FaceBox) :
  1 <= fw -> 1 <= fh -> usable fw fh face = true ->
  normalized_box fw fh (clamp_box fw fh face).
Proof.
  intros Hw Hh Hu. apply andb_true_iff in Hu as [Hs Ha].
  apply Qle_bool_iff in Hs, Ha.
  split; [exact Hs|]. split; [now apply clamp_box_inside|exact Ha].
Qed.

Lemma normalized_box_fixed (fw fh : Z) (face : FaceBox) :
  normalized_box fw fh face ->
  clamp_box fw fh face = face /\ usable fw fh face = true.
Proof.
  intros (Hs & (Hw & Hh & Hpix) & Ha).
  destruct (Hpix (box_x face) (box_y face)) as [Hx Hy]; [lia | lia |].
  destruct (Hpix (box_x face + box_w face - 1) (box_y face + box_h face - 1))
    as [Hx' Hy']; [lia | lia |].
  assert (Hfix : clamp_box fw fh face = face).
  { destruct face as [x y w h s]. unfold clamp_box, clamp; cbn in *.
    f_equal; lia. }
  split; [exact Hfix|].
  unfold usable. rewrite Hfix.
  apply andb_true_iff. split; now apply Qle_bool_iff.
Qed.

Lemma normalize_faces_fixed (faces : list FaceBox) (fw fh : Z) :
  Forall (normalized_box fw fh) faces -> normalize_faces faces fw fh = faces.
Proof.
  intros Hall. rewrite normalize_faces_filter_map.
  induction Hall as [|face faces Hface Hall IH]; [reflexivity|].
  destruct (normalized_box_fixed fw fh face Hface) as [Hfix Hu].
  cbn [filter]. rewrite Hu. cbn [map]. now rewrite Hfix, IH.
Qed.

(** C5: for every list of raw boxes and every frame of at least one pixel,
    [normalize_faces] returns, in the order of the input, the clamped
    versions of exactly those boxes whose score is at least 0.5 and whose
    clamped area is at least 0.001 of the frame area, a clamped box having
    its corner at the nearest pixel of the frame and sides of at least 1
    that end inside the frame; every box returned has score >= 0.5, lies
    entirely inside [0, frame_width) x [0, frame_height) and has area at
    least 0.001 of the frame area; and boxes that already are so are all
    returned, unchanged.  Being a function of the embedding, it is
    deterministic and has no effect. *)
Theorem normalize_faces_spec (faces : list FaceBox) (frame_width frame_height : Z) :
  1 <= frame_width -> 1 <= frame_height ->
  normalize_faces faces frame_width frame_height
  = map (clamp_box frame_width frame_height)
        (filter (usable frame_width frame_height) faces)
  /\ Forall (normalized_box frame_width frame_height)
            (normalize_faces faces frame_width frame_height)
  /\ (Forall (normalized_box frame_width frame_height) faces ->
      normalize_faces faces frame_width frame_height = faces).
Proof.
  intros Hw Hh. split; [apply normalize_faces_filter_map|]. split.
  - rewrite normalize_faces_filter_map.
    apply Forall_forall. intros b Hb.
    apply in_map_iff in Hb as (face & <- & Hin).
    apply filter_In in Hin as [_ Hu].
    now apply usable_normalized.
  - apply normalize_faces_fixed.
Qed.

Lemma normalize_faces_spec_witness :
  let raw := [mkFace (-5) 3 2000 50 1; mkFace 1 1 1 1 1;
              mkFace 100 100 200 200 (4 # 10); mkFace 1900 1000 200 200 (6 # 10);
              mkFace 2500 (-10) 300 2000 (7 # 10)] in
  normalize_faces raw 1920 1080
  = map (clamp_box 1920 1080) (filter (usable 1920 1080) raw)
  /\ Forall (normalized_box 1920 1080) (normalize_faces raw 1920 1080)
  /\ (Forall (normalized_box 1920 1080) raw ->
      normalize_faces raw 1920 1080 = raw).
Proof. intro raw. apply (normalize_faces_spec raw 1920 1080); lia. Defined.

(** * Choice of the face centre *)

Lemma insert_by_area_In (face g : FaceBox) (l : list FaceBox) :
  In g (insert_by_area face l) <-> g = face \/ In g l.
Proof.
  induction l as [|h l IH]; simpl.
  - intuition.
  - destruct (face_area h <=? face_area face); simpl.
    + intuition.
    + rewrite IH. intuition.
Qed.

Lemma sorted_by_area_In (g : FaceBox) (faces : list FaceBox) :
  In g (sorted_by_area faces) <-> In g faces.
Proof.
  induction faces as [|face faces IH]; simpl; [tauto|].
  rewrite insert_by_area_In, IH. intuition.
Qed.

Lemma insert_by_area_cons (face : FaceBox) (l : list FaceBox) :
  exists g rest, insert_by_area face l = g :: rest.
Proof.
  destruct l as [|h l]; simpl; [eauto|].
  destruct (face_area h <=? face_area face); eauto.
Qed.

Lemma sorted_by_area_cons (face : FaceBox) (faces : list FaceBox) :
  exists g rest, sorted_by_area (face :: faces) = g :: rest.
Proof. simpl. apply insert_by_area_cons. Qed.

Lemma score_step_some (prev : Q) (fw fa : Z) (face : FaceBox) (best c : Q) :
  exists best' c', score_step prev fw fa (best, Some c) face = (best', Some c').
Proof.
  destruct face as [x y w h s]. unfold score_step.
  destruct (Qlt_bool best _); eauto.
Qed.

Lemma score_step_keeps_center (prev : Q) (fw fa : Z) (l : list FaceBox)
    (best : Q) (c : Q) :
  exists best' c',
    fold_left (score_step prev fw fa) l (best, Some c) = (best', Some c').
Proof.
  revert best c. induction l as [|face l IH]; intros best c; cbn [fold_left].
  - eauto.
  - destruct (score_step_some prev fw fa face best c) as (b1 & c1 & ->).
    apply IH.
Qed.

Lemma truediv_half_bounds (w : Z) :
  0 <= w -> (0 <= truediv w 2 <= inject_Z w)%Q.
Proof.
  intros Hw. apply inject_Z_nonneg in Hw.
  unfold truediv. change (inject_Z 2) with 2%Q. split.
  - apply Qle_shift_div_l; lra.
  - apply Qle_shift_div_r; lra.
Qed.

Lemma box_center_in_frame (fw x w : Z) :
  0 <= x -> 0 <= w -> x + w <= fw ->
  (0 <= inject_Z x + truediv w 2 <= inject_Z fw)%Q.
Proof.
  intros Hx Hw Hxw.
  pose proof (truediv_half_bounds w Hw) as Hhalf.
  pose proof (inject_Z_nonneg x Hx) as H0.
  assert (H2 : (inject_Z x + inject_Z w <= inject_Z fw)%Q).
  { rewrite <- inject_Z_plus, <- Zle_Qle. lia. }
  lra.
Qed.

Lemma box_total_above_floor (prev : Q) (fw fh : Z) (face : FaceBox) :
  0 < fw -> 0 < fh -> (0 <= prev <= inject_Z fw)%Q ->
  box_of_frame fw fh face ->
  exists total c,
    score_step prev fw (fw * fh) ((-1000000000)%Q, None) face = (total, Some c).
Proof.
  intros Hw Hh Hp. destruct face as [x y w h s].
  unfold box_of_frame; cbn [box_x box_y box_w box_h box_score].
  intros (Hx & Hbw & Hxw & _ & Hbh & _ & Hs).
  unfold score_step.
  pose proof (box_center_in_frame fw x w Hx Hbw Hxw) as Hc.
  set (center := (inject_Z x + truediv w 2)%Q) in *.
  assert (Harea : (0 <= truediv (w * h) (fw * fh))%Q).
  { apply truediv_nonneg; nia. }
  pose proof (inject_Z_pos fw Hw) as Hfw.
  assert (Hd : (Qabs (center - prev) / inject_Z fw <= 1)%Q).
  { apply Qle_shift_div_r; [exact Hfw|].
    apply Qabs_Qle_condition. split; lra. }
  set (total := (_ - _ + _)%Q).
  enough (Ht : (-1000000000 < total)%Q).
  { apply Qlt_bool_iff in Ht. rewrite Ht. eauto. }
  unfold total. lra.
Qed.

Lemma pick_face_center_some (face : FaceBox) (faces : list FaceBox)
    (prev_center : option Q) (frame_width frame_height target_width : Z) :
  0 < frame_width -> 0 < frame_height ->
  center_of_frame frame_width prev_center ->
  Forall (box_of_frame frame_width frame_height) (face :: faces) ->
  exists center,
    pick_face_center (face :: faces) prev_center frame_width frame_height
                     target_width = Some center.
Proof.
  intros Hw Hh Hp Hall. unfold pick_face_center.
  destruct (group_center _ _) as [c|]; [now exists c|].
  destruct (sorted_by_area_cons face faces) as (g & rest & Hsorted).
  rewrite Hsorted.
  destruct prev_center as [prev|]; [|eauto].
  assert (Hg : box_of_frame frame_width frame_height g).
  { rewrite Forall_forall in Hall. apply Hall.
    apply sorted_by_area_In. rewrite Hsorted. now left. }
  cbn [fold_left].
  destruct (box_total_above_floor prev frame_width frame_height g Hw Hh Hp Hg)
    as (total & c & Hstep).
  rewrite Hstep.
  destruct (score_step_keeps_center prev frame_width (frame_width * frame_height)
              rest total c) as (best' & c' & Hfold).
  rewrite Hfold. cbn. eauto.
Qed.

(** C3: [pick_face_center] returns [None] if and only if the list of face
    boxes is empty, for every previous centre ([None] or a position within
    the frame), every frame of positive size, every target width, and every
    list of face boxes of that frame. *)
Theorem pick_face_center_none_iff_empty (faces : list FaceBox)
    (prev_center : option Q) (frame_width frame_height target_width : Z) :
  0 < frame_width -> 0 < frame_height ->
  center_of_frame frame_width prev_center ->
  Forall (box_of_frame frame_width frame_height) faces ->
  pick_face_center faces prev_center frame_width frame_height target_width = None
  <-> faces = [].
Proof.
  intros Hw Hh Hp Hall. split; [|intros ->; reflexivity].
  destruct faces as [|face faces]; [reflexivity|]. intros Hnone.
  destruct (pick_face_center_some face faces prev_center frame_width
              frame_height target_width Hw Hh Hp Hall) as [c Hc].
  congruence.
Qed.

Lemma pick_face_center_none_iff_empty_witness :
  pick_face_center [mkFace 100 100 101 100 1; mkFace 700 100 101 150 1]
                   (Some 960%Q) 1920 1080 606 = None
  <-> [mkFace 100 100 101 100 1; mkFace 700 100 101 150 1] = [].
Proof.
  apply pick_face_center_none_iff_empty.
  - lia.
  - lia.
  - simpl. split; [discriminate | discriminate].
  - repeat constructor; simpl; try lia; discriminate.
Defined.

(** The boxes have to be boxes of the frame: a box far outside it scores
    below the floor of -1e9 that the scoring loop starts from. *)
Remark pick_face_center_far_box :
  pick_face_center [mkFace 10000000000000 0 1 1 1] (Some 0%Q) 2 2 2 = None.
Proof. reflexivity. Qed.

Lemma normalized_box_of_frame (fw fh : Z) (face : FaceBox) :
  normalized_box fw fh face -> box_of_frame fw fh face.
Proof.
  intros (Hs & (Hw & Hh & Hpix) & _).
  destruct (Hpix (box_x face) (box_y face)) as [Hx Hy]; [lia | lia |].
  destruct (Hpix (box_x face + box_w face - 1) (box_y face + box_h face - 1))
    as [Hx' Hy']; [lia | lia |].
  unfold box_of_frame. repeat split; try lia.
  unfold MIN_FACE_SCORE in Hs. lra.
Qed.

(** In the planner the boxes come from [normalize_faces], whatever the
    detector reported, so the centre is missing exactly when no box is
    usable. *)
Lemma pick_after_normalize_none_iff (raw : list FaceBox) (prev_center : option Q)
    (frame_width frame_height target_width : Z) :
  0 < frame_width -> 0 < frame_height ->
  center_of_frame frame_width prev_center ->
  pick_face_center (normalize_faces raw frame_width frame_height) prev_center
                   frame_width frame_height target_width = None
  <-> normalize_faces raw frame_width frame_height = [].
Proof.
  intros Hw Hh Hp. split; [|intros ->; reflexivity].
  destruct (normalize_faces raw frame_width frame_height) as [|face faces] eqn:E;
    [reflexivity|].
  intros Hnone. exfalso.
  assert (Hall : Forall (box_of_frame frame_width frame_height) (face :: faces)).
  { rewrite <- E. eapply Forall_impl; [apply normalized_box_of_frame|].
    rewrite normalize_faces_filter_map. apply Forall_forall. intros b Hb.
    apply in_map_iff in Hb as (f & <- & Hin).
    apply filter_In in Hin as [_ Hu].
    apply usable_normalized; [lia | lia | exact Hu]. }
  destruct (pick_face_center_some face faces prev_center frame_width
              frame_height target_width Hw Hh Hp Hall) as [c Hc].
  congruence.
Qed.


Lemma py_int_half (a : Z) : py_int (truediv a 2) = a ÷ 2.
Proof.
  destruct (Z.le_gt_cases 0 a) as [Ha|Ha].
  - rewrite py_int_truediv by lia. symmetry. apply Z.quot_div_nonneg; lia.
  - unfold py_int.
    assert (Hneg : Qle_bool 0 (truediv a 2) = false).
    { destruct (Qle_bool 0 (truediv a 2)) eqn:E; [|reflexivity].
      apply Qle_bool_iff in E. unfold truediv, Qdiv, Qmult, Qinv, Qle in E.
      simpl in E. lia. }
    rewrite Hneg. unfold Qceiling, truediv, Qdiv, Qmult, Qinv, Qopp, Qfloor; simpl.
    rewrite Z.mul_1_r.
    replace a with (- (- a)) at 2 by lia.
    rewrite Z.quot_opp_l by lia.
    rewrite Z.quot_div_nonneg by lia. reflexivity.
Qed.

Lemma group_center_close_pair (f1 f2 : FaceBox) (target_width : Z) :
  close_pair f1 f2 target_width ->
  group_center [f1; f2] target_width
  = Some ((pair_min_x f1 f2 + pair_max_x f1 f2) ÷ 2).
Proof.
  intros (Heq & Hpos & Hspan). unfold group_center.
  assert (Hin : Qle_bool (inject_Z (face_area f1) * GROUP_FACE_AREA_RATIO)
                         (inject_Z (face_area f1)) = true).
  { apply Qle_bool_iff. apply inject_Z_nonneg in Hpos.
    unfold GROUP_FACE_AREA_RATIO. lra. }
  cbn [filter]. rewrite <- Heq, Hin. cbn [tl map].
  unfold py_min_list, py_max_list. cbn [fold_left].
  fold (pair_min_x f1 f2). fold (pair_max_x f1 f2).
  assert (Hfit : Qle_bool (inject_Z (pair_max_x f1 f2 - pair_min_x f1 f2))
                          (inject_Z target_width * GROUP_MAX_SPAN_RATIO) = true).
  { apply Qle_bool_iff. lra. }
  rewrite Hfit. now rewrite py_int_half.
Qed.

(** C4, as amended: for every frame size, every previous centre and every
    pair of boxes of equal, non-negative area whose combined horizontal span
    max(x+w) - min(x) is at most 0.9 times target_width, [pick_face_center]
    returns the midpoint (min_x + max_x)/2 of that span converted to an
    int, that is truncated toward zero; it is the exact midpoint when
    min_x + max_x is even. *)
Theorem pick_face_center_close_pair (f1 f2 : FaceBox) (prev_center : option Q)
    (frame_width frame_height target_width : Z) :
  close_pair f1 f2 target_width ->
  let sum := pair_min_x f1 f2 + pair_max_x f1 f2 in
  pick_face_center [f1; f2] prev_center frame_width frame_height target_width
  = Some (sum ÷ 2)
  /\ (Z.even sum = true -> (inject_Z (sum ÷ 2) == inject_Z sum / 2)%Q).
Proof.
  intros Hclose sum. split.
  - unfold pick_face_center.
    assert (Hsorted : sorted_by_area [f1; f2] = [f1; f2]).
    { destruct Hclose as (Heq & _). unfold sorted_by_area. cbn.
      rewrite Heq, Z.leb_refl. reflexivity. }
    rewrite Hsorted, (group_center_close_pair f1 f2 target_width Hclose).
    reflexivity.
  - intros Heven. apply Z.even_spec in Heven as [k Hk]. rewrite Hk.
    rewrite Z.mul_comm, Z.quot_mul by lia.
    rewrite inject_Z_mult. field.
Qed.

Lemma pick_face_center_close_pair_witness :
  let f1 := mkFace 100 100 100 100 1 in
  let f2 := mkFace 300 100 100 100 1 in
  pick_face_center [f1; f2] None 1920 1080 606 = Some 250
  /\ (Z.even 500 = true -> (inject_Z 250 == inject_Z 500 / 2)%Q).
Proof.
  intros f1 f2.
  apply (pick_face_center_close_pair f1 f2 None 1920 1080 606).
  unfold close_pair. split; [reflexivity|]. split; [vm_compute; discriminate|].
  vm_compute. discriminate.
Defined.

(** C4 as stated fails when min_x + max_x is odd: two 101 x 100 boxes at
    x = 100 and x = 300 span [100, 401], within 0.9 * 606; the midpoint is
    250.5 and the function returns 250. *)
Lemma pick_face_center_not_exact_midpoint :
  let f1 := mkFace 100 100 101 100 1 in
  let f2 := mkFace 300 100 101 100 1 in
  close_pair f1 f2 606
  /\ pick_face_center [f1; f2] None 1920 1080 606 = Some 250
  /\ ~ (inject_Z 250 == inject_Z (pair_min_x f1 f2 + pair_max_x f1 f2) / 2)%Q.
Proof.
  intros f1 f2. split; [|split].
  - unfold close_pair. split; [reflexivity|]. split; [vm_compute; discriminate|].
    vm_compute. discriminate.
  - reflexivity.
  - vm_compute. discriminate.
Qed.

(** * Face-tracking planner *)

Lemma clamp_Q_bounds (v lo hi : Q) :
  (lo <= hi)%Q -> (lo <= clamp v lo hi <= hi)%Q.
Proof.
  intros H. unfold clamp; simpl. split.
  - apply Q.le_max_l.
  - apply Q.max_lub; [exact H | apply Q.le_min_r].
Qed.

Lemma clamp_Q_inside (v lo hi : Q) :
  (lo <= v <= hi)%Q -> (clamp v lo hi == v)%Q.
Proof.
  intros [Hlo Hhi]. unfold clamp; simpl.
  rewrite (Q.min_l v hi Hhi). now apply Q.max_r.
Qed.

Lemma smoothing_bounds (fps : Q) :
  ((5 # 100) <= Qmin (3 # 10) (Qmax (5 # 100) (5 / fps)) <= (3 # 10))%Q.
Proof.
  split.
  - apply Q.min_glb; [lra | apply Q.le_max_l].
  - apply Q.le_min_l.
Qed.

Lemma smooth_between (lo hi s t a : Q) :
  (lo <= s <= hi)%Q -> (lo <= t <= hi)%Q -> (0 <= a <= 1)%Q ->
  (lo <= s + (t - s) * a <= hi)%Q.
Proof.
  intros [Hs1 Hs2] [Ht1 Ht2] [Ha1 Ha2]. split.
  - assert (H : (0 <= (1 - a) * (s - lo) + a * (t - lo))%Q).
    { apply Qplus_le_compat with (x := 0%Q) (z := 0%Q);
        apply Qmult_le_0_compat; lra. }
    lra.
  - assert (H : (0 <= (1 - a) * (hi - s) + a * (hi - t))%Q).
    { apply Qplus_le_compat with (x := 0%Q) (z := 0%Q);
        apply Qmult_le_0_compat; lra. }
    lra.
Qed.

Lemma midpoint_in_range (c : FaceConfig) :
  fc_target_width c <= fc_width c ->
  center_range c (truediv (fc_width c) 2).
Proof.
  intros H1. unfold center_range, truediv. change (inject_Z 2) with 2%Q.
  assert (H : (inject_Z (fc_target_width c) <= inject_Z (fc_width c))%Q)
    by now rewrite <- Zle_Qle.
  assert (Ht : (inject_Z (fc_target_width c) / 2 * 2 == inject_Z (fc_target_width c))%Q)
    by field.
  assert (Hw : (inject_Z (fc_width c) / 2 * 2 == inject_Z (fc_width c))%Q)
    by field.
  split; lra.
Qed.

Lemma update_points_zero (interval : Z) :
  1 <= interval -> update_points interval 0 = 0.
Proof.
  intros H. unfold update_points. apply Z.div_small. lia.
Qed.

Lemma update_points_nonneg (interval : Z) (seen : nat) :
  1 <= interval -> 0 <= update_points interval seen.
Proof.
  intros H. unfold update_points. apply Z.div_pos; lia.
Qed.

Lemma update_points_hit (interval : Z) (seen : nat) :
  1 <= interval -> Z.of_nat seen mod interval = 0 ->
  update_points interval (S seen) = update_points interval seen + 1.
Proof.
  intros H Hmod. unfold update_points. rewrite Nat2Z.inj_succ.
  pose proof (Z.div_mod (Z.of_nat seen) interval ltac:(lia)) as Hdm.
  rewrite Hmod, Z.add_0_r in Hdm.
  set (q := Z.of_nat seen / interval) in *.
  replace (Z.succ (Z.of_nat seen) + interval - 1) with ((q + 1) * interval) by lia.
  rewrite Z.div_mul by lia.
  replace (Z.of_nat seen + interval - 1) with (q * interval + (interval - 1)) by lia.
  rewrite Z.div_add_l, (Z.div_small (interval - 1)) by lia. lia.
Qed.

Lemma update_points_miss (interval : Z) (seen : nat) :
  1 <= interval -> Z.of_nat seen mod interval <> 0 ->
  update_points interval (S seen) = update_points interval seen.
Proof.
  intros H Hmod. unfold update_points. rewrite Nat2Z.inj_succ.
  pose proof (Z.div_mod (Z.of_nat seen) interval ltac:(lia)) as Hdm.
  pose proof (Z.mod_pos_bound (Z.of_nat seen) interval ltac:(lia)) as Hb.
  set (q := Z.of_nat seen / interval) in *.
  set (r := Z.of_nat seen mod interval) in *.
  replace (Z.succ (Z.of_nat seen) + interval - 1)
    with ((q + 1) * interval + r) by lia.
  replace (Z.of_nat seen + interval - 1)
    with ((q + 1) * interval + (r - 1)) by lia.
  rewrite !Z.div_add_l, (Z.div_small r), (Z.div_small (r - 1)) by lia. lia.
Qed.

Lemma offset_mod (first j interval : Z) :
  1 <= interval -> first mod interval = 0 ->
  (first + j) mod interval = j mod interval.
Proof.
  intros H Hf. rewrite Z.add_mod, Hf, Z.add_0_l by lia.
  apply Z.mod_mod. lia.
Qed.

Section FacePlanner.

Context {Frame : Type}.
Variable frame_shape : Frame -> Z * Z.
Variable detect : Frame -> list FaceBox.

Lemma face_step_in_range (c : FaceConfig) (st : FaceState) (frame : Frame) :
  fc_target_width c <= fc_width c ->
  (0 <= fc_smoothing c <= 1)%Q ->
  center_range c (smoothed_center st) ->
  centers_in_range c (face_step frame_shape detect c st frame).
Proof.
  intros Hw Ha Hs. unfold face_step.
  destruct (if frame_idx st mod fc_update_interval c =? 0 then _ else _)
    as [target missing].
  cbn [target_center smoothed_center centers_in_range].
  assert (Hlohi : (truediv (fc_target_width c) 2
                   <= inject_Z (fc_width c) - truediv (fc_target_width c) 2)%Q).
  { unfold truediv. change (inject_Z 2) with 2%Q.
    assert (H : (inject_Z (fc_target_width c) <= inject_Z (fc_width c))%Q)
      by now rewrite <- Zle_Qle.
    assert (Ht : (inject_Z (fc_target_width c) / 2 * 2
                  == inject_Z (fc_target_width c))%Q) by field.
    lra. }
  pose proof (clamp_Q_bounds target _ _ Hlohi) as Ht.
  split; [exact Ht|].
  pose proof (smooth_between _ _ (smoothed_center st) _ (fc_smoothing c)
                Hs Ht Ha) as [H1 H2].
  unfold center_range. split.
  - eapply Qle_trans; [exact H1|].
    apply Qle_lteq. right. symmetry. apply Qred_correct.
  - eapply Qle_trans; [|exact H2].
    apply Qle_lteq. right. apply Qred_correct.
Qed.

Lemma face_run_in_range (c : FaceConfig) (frames : list Frame) (st : FaceState) :
  fc_target_width c <= fc_width c ->
  (0 <= fc_smoothing c <= 1)%Q ->
  centers_in_range c st ->
  centers_in_range c (fold_left (face_step frame_shape detect c) frames st).
Proof.
  intros Hw Ha. revert st.
  induction frames as [|frame frames IH]; intros st Hst; cbn [fold_left].
  - exact Hst.
  - apply IH. apply face_step_in_range; try assumption. apply Hst.
Qed.

(** C2: in the face-tracking planner, for every sequence of frames
    (whatever the detector reports on them) and every frame of it, after
    the per-frame update [target_center] and [smoothed_center] both lie in
    [target_width/2, width - target_width/2], given
    width > target_width and a smoothing factor in [0.05, 0.3]. *)
Theorem face_centers_stay_in_range (c : FaceConfig) (frames : list Frame)
    (k : nat) :
  fc_target_width c < fc_width c ->
  ((5 # 100) <= fc_smoothing c <= (3 # 10))%Q ->
  centers_in_range c
    (fold_left (face_step frame_shape detect c) (firstn k frames)
               (face_init (fc_width c))).
Proof.
  intros Hw Ha. apply face_run_in_range.
  - lia.
  - lra.
  - split; cbn [face_init target_center smoothed_center];
      apply midpoint_in_range; lia.
Qed.

(** The run of [crop_face_tracking] itself meets the two conditions:
    whenever it tracks, its final state is in range. *)
Lemma crop_face_tracking_in_range (cap : Video Frame) (r : FaceRun)
    (st : FaceState) :
  crop_face_tracking frame_shape detect (Some cap) = Ok r ->
  run_tracking r = Some st ->
  exists target_width target_height,
    face_geometry (cap_width cap) (cap_height cap)
    = Ok (target_width, target_height)
    /\ centers_in_range
         (face_config (cap_width cap) (cap_height cap)
                      target_width target_height (resolve_fps cap)) st.
Proof.
  unfold crop_face_tracking, face_geometry.
  destruct (ensure_valid_dimensions _ _) as [[]|msg]; cbn [bind]; [|discriminate].
  destruct (face_target_size _ _) as [[tw th]|msg]; cbn [bind]; [|discriminate].
  destruct (Z.leb_spec (cap_width cap) tw) as [Hle|Hgt].
  - intros [= <-]. discriminate.
  - intros [= <-]. cbn [run_tracking]. intros [= <-].
    exists tw, th. split; [reflexivity|].
    apply face_run_in_range.
    + cbn. lia.
    + cbn [face_config fc_smoothing].
      pose proof (smoothing_bounds (resolve_fps cap)). lra.
    + split; cbn [face_init target_center smoothed_center];
        apply (midpoint_in_range (face_config _ _ _ _ _)); cbn; lia.
Qed.

(** The detection update of one frame, case by case. *)
Lemma face_step_empty_update (c : FaceConfig) (st : FaceState) (frame : Frame) :
  frame_idx st mod fc_update_interval c = 0 ->
  normalize_faces (detect frame) (fc_width c) (fc_height c) = [] ->
  let st' := face_step frame_shape detect c st frame in
  let missing := missing_frames st + fc_update_interval c in
  frame_idx st' = frame_idx st + 1
  /\ missing_frames st' = missing
  /\ target_center st'
     = clamp (if fc_missing_threshold c <=? missing
              then truediv (fc_width c) 2 else target_center st)
             (truediv (fc_target_width c) 2)
             (inject_Z (fc_width c) - truediv (fc_target_width c) 2)%Q.
Proof.
  intros Hidx Hnone. unfold face_step.
  apply Z.eqb_eq in Hidx. rewrite Hidx, Hnone.
  cbn [pick_face_center face_update]. rewrite Z.geb_leb.
  destruct (fc_missing_threshold c <=? _); cbn; auto.
Qed.

Lemma face_step_no_update (c : FaceConfig) (st : FaceState) (frame : Frame) :
  frame_idx st mod fc_update_interval c <> 0 ->
  let st' := face_step frame_shape detect c st frame in
  frame_idx st' = frame_idx st + 1
  /\ missing_frames st' = missing_frames st
  /\ target_center st'
     = clamp (target_center st)
             (truediv (fc_target_width c) 2)
             (inject_Z (fc_width c) - truediv (fc_target_width c) 2)%Q.
Proof.
  intros Hidx. unfold face_step.
  apply Z.eqb_neq in Hidx. rewrite Hidx. cbn; auto.
Qed.

Lemma empty_updates_invariant (c : FaceConfig) (st0 : FaceState)
    (frames : list Frame) :
  1 <= fc_update_interval c ->
  fc_target_width c <= fc_width c ->
  frame_idx st0 mod fc_update_interval c = 0 ->
  center_range c (target_center st0) ->
  forall (seen : nat) (st : FaceState),
    frame_idx st = frame_idx st0 + Z.of_nat seen ->
    recentered_at (fc_missing_threshold c) c st0 st
                  (update_points (fc_update_interval c) seen) ->
    empty_update_points detect c (frame_idx st) frames ->
    recentered_at (fc_missing_threshold c) c st0
                  (fold_left (face_step frame_shape detect c) frames st)
                  (update_points (fc_update_interval c) (seen + length frames)).
Proof.
  intros Hui Hw Hfirst Hrange0.
  pose proof (midpoint_in_range c Hw) as Hmid.
  induction frames as [|frame frames IH]; intros seen st Hidx Hrec Hempty.
  - now rewrite Nat.add_0_r.
  - cbn [fold_left length]. rewrite <- Nat.add_succ_comm.
    destruct Hrec as [Hmiss Htgt].
    pose proof (update_points_nonneg (fc_update_interval c) seen Hui) as Hn.
    set (n := update_points (fc_update_interval c) seen) in *.
    assert (Hin : center_range c (target_center st)).
    { unfold center_range. rewrite Htgt.
      destruct (_ && _); [apply Hmid | apply Hrange0]. }
    assert (Hrest : forall st',
               frame_idx st' = frame_idx st + 1 ->
               empty_update_points detect c (frame_idx st') frames).
    { intros st' E k f Hk Hm. apply (Hempty (S k) f Hk).
      rewrite E in Hm. rewrite Nat2Z.inj_succ.
      now replace (frame_idx st + Z.succ (Z.of_nat k))
        with (frame_idx st + 1 + Z.of_nat k) by lia. }
    destruct (Z.eq_dec (Z.of_nat seen mod fc_update_interval c) 0) as [Hhit|Hmis].
    + assert (Hupd : frame_idx st mod fc_update_interval c = 0).
      { rewrite Hidx, offset_mod; auto. }
      assert (Hnone : normalize_faces (detect frame) (fc_width c) (fc_height c) = []).
      { apply (Hempty 0%nat frame eq_refl). now rewrite Z.add_0_r. }
      destruct (face_step_empty_update c st frame Hupd Hnone) as (E1 & E2 & E3).
      apply IH; [lia | | now apply Hrest].
      rewrite update_points_hit by assumption. fold n.
      unfold recentered_at.
      replace (missing_frames st0 + (n + 1) * fc_update_interval c)
        with (missing_frames st + fc_update_interval c) by lia.
      split; [exact E2|].
      rewrite E3.
      destruct (Z.leb_spec (fc_missing_threshold c)
                  (missing_frames st + fc_update_interval c)) as [Hge|Hlt].
      * replace (1 <=? n + 1) with true by (symmetry; apply Z.leb_le; lia).
        cbn [andb]. now apply clamp_Q_inside.
      * rewrite andb_false_r. rewrite (clamp_Q_inside _ _ _ Hin), Htgt.
        replace (fc_missing_threshold c
                 <=? missing_frames st0 + n * fc_update_interval c)
          with false by (symmetry; apply Z.leb_gt; lia).
        now rewrite andb_false_r.
    + assert (Hupd : frame_idx st mod fc_update_interval c <> 0).
      { rewrite Hidx, offset_mod; auto. }
      destruct (face_step_no_update c st frame Hupd) as (E1 & E2 & E3).
      apply IH; [lia | | now apply Hrest].
      rewrite update_points_miss by assumption. fold n.
      split; [now rewrite E2|].
      now rewrite E3, (clamp_Q_inside _ _ _ Hin).
Qed.

(** C6, as amended: in the face-tracking planner, over any run of frames
    that starts at an update point and whose update points all yield no
    usable face, [missing_frames] grows by [update_interval] at every
    update point, and after the n-th of them [target_center] is exactly
    width/2 if n >= 1 and the count has reached
    [missing_threshold = int(fps * 2.0)] (truncated, not rounded), and is
    the target the run started with otherwise.  So the target is
    recentred at the first empty update point at which the count is at
    least int(2.0 * fps), which can come before the count reaches
    round(2.0 * fps). *)
Theorem missing_face_recentering (width height target_width target_height : Z)
    (fps : Q) (st : FaceState) (frames : list Frame) :
  let c := face_config width height target_width target_height fps in
  target_width <= width ->
  frame_idx st mod fc_update_interval c = 0 ->
  center_range c (target_center st) ->
  empty_update_points detect c (frame_idx st) frames ->
  recentered_at (py_int (fps * 2)) c st
                (fold_left (face_step frame_shape detect c) frames st)
                (update_points (Z.max 1 (py_int (fps * (1 # 2))))
                               (length frames)).
Proof.
  intros c Hw Hidx Hrange Hempty.
  apply (empty_updates_invariant c st frames) with (seen := 0%nat) (st := st);
    try assumption.
  - cbn. lia.
  - cbn [Z.of_nat]. lia.
  - change (fc_update_interval c) with (Z.max 1 (py_int (fps * (1 # 2)))).
    rewrite update_points_zero by lia.
    split; [lia | reflexivity].
Qed.

(** What C6 says of the count ceil(2.0 * fps / update_interval) does hold:
    once the count covers two seconds of frames, an empty update point has
    recentred the target. *)
Lemma recentered_by_two_seconds (width height target_width target_height : Z)
    (fps : Q) (st : FaceState) (frames : list Frame) :
  let c := face_config width height target_width target_height fps in
  let n := update_points (fc_update_interval c) (length frames) in
  target_width <= width ->
  frame_idx st mod fc_update_interval c = 0 ->
  center_range c (target_center st) ->
  empty_update_points detect c (frame_idx st) frames ->
  1 <= n ->
  (0 <= fps)%Q ->
  (MISSING_FACE_SECONDS * fps
   <= inject_Z (missing_frames st + n * fc_update_interval c))%Q ->
  (target_center (fold_left (face_step frame_shape detect c) frames st)
   == truediv width 2)%Q.
Proof.
  intros c n Hw Hidx Hrange Hempty Hn Hfps Hcount.
  assert (Hui : 1 <= fc_update_interval c) by (cbn; lia).
  destruct (empty_updates_invariant c st frames Hui Hw Hidx Hrange 0%nat st)
    as [_ Htgt].
  - cbn [Z.of_nat]. lia.
  - rewrite update_points_zero by exact Hui. split; [lia | reflexivity].
  - exact Hempty.
  - cbn [Nat.add] in Htgt. fold n in Htgt. rewrite Htgt.
    apply Z.leb_le in Hn. rewrite Hn. cbn [andb].
    assert (Hthr : fc_missing_threshold c
                   <= missing_frames st + n * fc_update_interval c).
    { cbn [c face_config fc_missing_threshold].
      rewrite py_int_nonneg by (unfold MISSING_FACE_SECONDS; lra).
      rewrite <- (Qfloor_Z (missing_frames st + n * fc_update_interval c)).
      apply Qfloor_resp_le. unfold MISSING_FACE_SECONDS in *. lra. }
    apply Z.leb_le in Hthr. rewrite Hthr. reflexivity.
Qed.

Lemma passthrough_written (target_width target_height : Z)
    (frames : list Frame) (written : list (Z * Z)) :
  fold_left (passthrough_step target_width target_height) frames written
  = written ++ map (fun _ => (target_width, target_height)) frames.
Proof.
  revert written. induction frames as [|frame frames IH]; intros written.
  - cbn. now rewrite app_nil_r.
  - cbn [fold_left map]. rewrite IH. unfold passthrough_step; cbn [fst snd].
    now rewrite <- app_assoc.
Qed.

(** C7: in face mode, whenever the source is not wider than the target
    ([width <= target_width], which the cap of the target width makes an
    equality), the planner takes the passthrough path: it succeeds with
    no call of the face detector and no tracking state, and writes one
    frame of exactly [(target_width, target_height)] for every frame
    read. *)
Theorem passthrough_without_detection (cap : Video Frame)
    (target_width target_height : Z) :
  face_geometry (cap_width cap) (cap_height cap)
  = Ok (target_width, target_height) ->
  cap_width cap <= target_width ->
  exists r,
    crop_face_tracking frame_shape detect (Some cap) = Ok r
    /\ run_detect_calls r = 0%nat
    /\ run_tracking r = None
    /\ run_written r
       = map (fun _ => (target_width, target_height)) (cap_frames cap).
Proof.
  intros Hgeo Hle. unfold crop_face_tracking. unfold face_geometry in Hgeo.
  destruct (ensure_valid_dimensions (cap_width cap) (cap_height cap))
    as [[]|msg]; cbn [bind] in *; [|discriminate].
  rewrite Hgeo. cbn [bind].
  apply Z.leb_le in Hle. rewrite Hle.
  eexists. split; [reflexivity|]. cbn [run_detect_calls run_tracking run_written].
  split; [reflexivity|]. split; [reflexivity|].
  now rewrite passthrough_written.
Qed.

End FacePlanner.

(** * Motion-tracking planner *)

Lemma Qsum_from (l : list Q) (a : Q) : (fold_left Qplus l a == a + Qsum l)%Q.
Proof.
  unfold Qsum. revert a. induction l as [|x l IH]; intros a; cbn [fold_left].
  - ring.
  - rewrite (IH (a + x)%Q), (IH (0 + x)%Q). ring.
Qed.

Lemma Qsum_cons (x : Q) (l : list Q) : (Qsum (x :: l) == x + Qsum l)%Q.
Proof.
  unfold Qsum at 1. cbn [fold_left]. rewrite Qsum_from. ring.
Qed.

Lemma Qsum_add_rows (a b : list Q) :
  length a = length b -> (Qsum (add_rows a b) == Qsum a + Qsum b)%Q.
Proof.
  revert b. induction a as [|x a IH]; intros [|y b] Hlen; try discriminate.
  - cbn. ring.
  - cbn [add_rows]. rewrite !Qsum_cons, IH by (cbn in Hlen; lia). ring.
Qed.

Lemma length_add_rows (a b : list Q) :
  length a = length b -> length (add_rows a b) = length a.
Proof.
  revert b. induction a as [|x a IH]; intros [|y b] Hlen; try discriminate.
  - reflexivity.
  - cbn. f_equal. apply IH. cbn in Hlen. lia.
Qed.

Lemma Qsum_zeros (n : nat) : (Qsum (repeat 0%Q n) == 0)%Q.
Proof.
  induction n as [|n IH]; [reflexivity|].
  cbn [repeat]. rewrite Qsum_cons, IH. ring.
Qed.

Lemma masked_nonneg (m : Q) : (0 <= masked m)%Q.
Proof.
  unfold masked, significant. destruct (Qlt_bool 2 m) eqn:E; [|lra].
  apply Qlt_bool_iff in E. lra.
Qed.

Lemma Qsum_masked_nonneg (row : list Q) : (0 <= Qsum (map masked row))%Q.
Proof.
  induction row as [|m row IH]; [cbn; lra|].
  cbn [map]. rewrite Qsum_cons. pose proof (masked_nonneg m). lra.
Qed.

Lemma Qsum_masked_significant (row : list Q) :
  existsb significant row = true -> (2 < Qsum (map masked row))%Q.
Proof.
  induction row as [|m row IH]; [discriminate|].
  cbn [existsb map]. rewrite Qsum_cons. intros H.
  pose proof (Qsum_masked_nonneg row) as Hrest.
  pose proof (masked_nonneg m) as Hm.
  apply orb_true_iff in H as [H|H].
  - assert (Em : masked m = m) by (unfold masked; now rewrite H).
    rewrite Em. apply Qlt_bool_iff in H. lra.
  - specialize (IH H). lra.
Qed.

Lemma col_motion_from (n : nat) (magnitude : list (list Q)) (acc : list Q) :
  Forall (fun row => length row = n) magnitude -> length acc = n ->
  let col := fold_left (fun acc row => add_rows acc (map masked row)) magnitude acc in
  (Qsum acc <= Qsum col)%Q
  /\ (existsb (existsb significant) magnitude = true -> Qsum acc + 2 < Qsum col)%Q.
Proof.
  intros Hshape. revert acc.
  induction Hshape as [|row magnitude Hrow Hshape IH]; intros acc Hacc.
  - cbn [fold_left existsb]. split; [apply Qle_refl | discriminate].
  - cbn [fold_left existsb].
    assert (Hlen : length acc = length (map masked row))
      by now rewrite length_map, Hrow.
    destruct (IH (add_rows acc (map masked row))) as [Hmono Hstrict].
    { now rewrite length_add_rows. }
    rewrite Qsum_add_rows in Hmono, Hstrict by assumption.
    pose proof (Qsum_masked_nonneg row) as Hnn.
    cbv beta zeta in *.
    split; [lra|].
    intros H. apply orb_true_iff in H as [H|H].
    + apply Qsum_masked_significant in H. lra.
    + specialize (Hstrict H). lra.
Qed.

Lemma significant_col_motion (c : ScreenConfig) (magnitude : list (list Q)) :
  field_of_width c magnitude -> any_significant magnitude = true ->
  (0 < Qsum (col_motion (sc_scaled_width c) magnitude))%Q.
Proof.
  intros Hshape Hany. unfold col_motion.
  destruct (col_motion_from (Z.to_nat (sc_scaled_width c)) magnitude
              (repeat 0%Q (Z.to_nat (sc_scaled_width c))) Hshape
              (repeat_length _ _)) as [_ Hstrict].
  specialize (Hstrict Hany). rewrite Qsum_zeros in Hstrict. cbn zeta in Hstrict. lra.
Qed.

Section ScreenPlanner.

Context {Frame Gray : Type}.
Variable to_gray : Z -> Z -> Frame -> Gray.
Variable flow_magnitude : Gray -> Gray -> list (list Q).

Lemma quiet_from_firstn (c : ScreenConfig) (frames : list Frame) (k : nat)
    (idx : Z) (prev : option Gray) :
  quiet_from to_gray flow_magnitude c idx prev frames ->
  quiet_from to_gray flow_magnitude c idx prev (firstn k frames).
Proof.
  revert k idx prev.
  induction frames as [|frame frames IH]; intros [|k] idx prev Hq;
    cbn [firstn quiet_from]; try exact I.
  cbn [quiet_from] in Hq. destruct Hq as [Hnow Hrest].
  split; [exact Hnow|].
  destruct (_ && _); [exact I|]. now apply IH.
Qed.

Lemma screen_loop_quiet (c : ScreenConfig) (frames : list Frame)
    (st : ScreenState Gray) :
  smoothed_x st = 0 ->
  quiet_from to_gray flow_magnitude c (screen_frame_idx st) (prev_gray st) frames ->
  smoothed_x (screen_loop to_gray flow_magnitude c frames st) = 0.
Proof.
  revert st. induction frames as [|frame frames IH]; intros st Hx Hq;
    cbn [screen_loop]; [exact Hx|].
  cbn [quiet_from] in Hq. destruct Hq as [Hnow Hrest].
  set (st' := screen_step to_gray flow_magnitude c st frame).
  assert (Hx' : smoothed_x st' = 0).
  { unfold st', screen_step. cbn [smoothed_x].
    destruct (screen_frame_idx st mod sc_update_interval c =? 0); [|exact Hx].
    destruct (prev_gray st) as [p|]; [|exact Hx].
    unfold motion_update. now rewrite Hnow. }
  assert (Hidx : screen_frame_idx st' = screen_frame_idx st + 1) by reflexivity.
  assert (Hprev : prev_gray st'
                  = if screen_frame_idx st mod sc_update_interval c =? 0
                    then Some (to_gray (sc_scaled_width c) (sc_scaled_height c) frame)
                    else prev_gray st) by reflexivity.
  rewrite Hidx.
  destruct (negb (sc_total_frames c =? 0)
            && (screen_frame_idx st + 1 >=? sc_total_frames c)); [exact Hx'|].
  apply IH; [exact Hx'|]. now rewrite Hidx, Hprev.
Qed.

(** An estimator that never reports a magnitude above 2.0, as on frames
    that do not change, makes every video quiet. *)
Lemma motionless_quiet (c : ScreenConfig) (frames : list Frame) :
  (forall p q, any_significant (flow_magnitude p q) = false) ->
  forall idx prev, quiet_from to_gray flow_magnitude c idx prev frames.
Proof.
  intros Hzero. induction frames as [|frame frames IH]; intros idx prev;
    cbn [quiet_from]; [exact I|].
  split.
  - destruct (_ =? 0); [|exact I]. destruct prev; [apply Hzero | exact I].
  - destruct (_ && _); [exact I | apply IH].
Qed.

(** C8: in the motion-tracking planner, on a video none of whose update
    points yields a motion field with a pixel of magnitude above 2.0 (an
    all-zero field in particular), [smoothed_x] is still its initial 0
    after every frame of the pass. *)
Theorem quiet_video_keeps_pan (c : ScreenConfig) (frames : list Frame)
    (k : nat) :
  quiet to_gray flow_magnitude c frames ->
  smoothed_x (screen_loop to_gray flow_magnitude c (firstn k frames) screen_init)
  = 0.
Proof.
  intros Hquiet. apply screen_loop_quiet; [reflexivity|].
  cbn [screen_init screen_frame_idx prev_gray].
  now apply quiet_from_firstn.
Qed.

(** The same for the whole pass of [crop_screen_tracking]. *)
Lemma crop_screen_tracking_quiet (cap : Video Frame) (st : ScreenState Gray) :
  (forall c, quiet to_gray flow_magnitude c (cap_frames cap)) ->
  crop_screen_tracking to_gray flow_magnitude (Some cap) = Ok st ->
  smoothed_x st = 0.
Proof.
  intros Hquiet. unfold crop_screen_tracking.
  destruct (ensure_valid_dimensions _ _) as [[]|msg]; cbn [bind]; [|discriminate].
  destruct (screen_target_size _ _) as [[tw th]|msg]; cbn [bind]; [|discriminate].
  intros [= <-].
  apply screen_loop_quiet; [reflexivity|]. apply Hquiet.
Qed.

(** C9, as amended: at an update point that has a previous luma and a
    motion field (one value per column of the scaled frame in every row)
    with a pixel of magnitude above 2.0, the new [smoothed_x] is
    0.9 * smoothed_x + 0.1 * target_x converted to an int, that is
    truncated toward zero: the pan is kept as an integer, within one of
    the blended value, not as a float. *)
Theorem pan_update_truncates (c : ScreenConfig) (st : ScreenState Gray)
    (frame : Frame) (prev : Gray) :
  screen_frame_idx st mod sc_update_interval c = 0 ->
  prev_gray st = Some prev ->
  let magnitude :=
    flow_magnitude prev
      (to_gray (sc_scaled_width c) (sc_scaled_height c) frame) in
  field_of_width c magnitude ->
  any_significant magnitude = true ->
  let target_x := motion_target_x c (col_motion (sc_scaled_width c) magnitude) in
  let blend := ((9 # 10) * inject_Z (smoothed_x st)
                + (1 # 10) * inject_Z target_x)%Q in
  smoothed_x (screen_step to_gray flow_magnitude c st frame) = py_int blend
  /\ (Qabs (inject_Z (py_int blend) - blend) < 1)%Q.
Proof.
  intros Hidx Hprev magnitude Hshape Hany target_x blend. split.
  - unfold screen_step. cbn [smoothed_x].
    apply Z.eqb_eq in Hidx. rewrite Hidx, Hprev.
    fold magnitude. unfold motion_update. rewrite Hany.
    pose proof (significant_col_motion c magnitude Hshape Hany) as Hpos.
    apply Qlt_bool_iff in Hpos. rewrite Hpos. reflexivity.
  - apply py_int_within_one.
Qed.

(** C10: in auto mode, for an input that cannot be opened,
    [detect_face_centers] returns the empty list instead of raising, the
    mode selected is Screen, and the failure is the one raised by the
    screen planner, reported by [main]; in face mode the face planner
    raises its own. *)
Theorem unreadable_input_selects_screen
    (frame_shape : Frame -> Z * Z) (detect : Frame -> list FaceBox)
    (max_samples : Z) :
  detect_face_centers frame_shape detect None max_samples = []
  /\ select_mode frame_shape detect Auto None = ScreenMode
  /\ crop_screen_tracking to_gray flow_magnitude None
     = Raise "Unable to open video for screen crop."
  /\ main frame_shape detect to_gray flow_magnitude Auto None
     = Raise "crop_failed: Unable to open video for screen crop."
  /\ main frame_shape detect to_gray flow_magnitude FaceMode None
     = Raise "crop_failed: Unable to open video for face crop.".
Proof. repeat split; reflexivity. Qed.

End ScreenPlanner.

(** * The theorems at sample inputs *)

Lemma face_centers_stay_in_range_witness :
  centers_in_range slow_config
    (fold_left (face_step boxes_shape boxes_detect slow_config)
               (firstn 20 (face_then_nothing 24)) (face_init 1920)).
Proof.
  apply (face_centers_stay_in_range boxes_shape boxes_detect slow_config
           (face_then_nothing 24) 20).
  - vm_compute. reflexivity.
  - vm_compute. split; discriminate.
Defined.

Lemma nth_error_repeat_nil {A : Type} (n k : nat) (l : list A) :
  nth_error (repeat (@nil A) n) k = Some l -> l = [].
Proof.
  intros H. apply nth_error_In in H. now apply repeat_spec in H.
Qed.

Lemma missing_face_recentering_witness :
  recentered_at (py_int ((99 # 8) * 2)) slow_config
    (slow_state 5)
    (fold_left (face_step boxes_shape boxes_detect slow_config)
               (repeat [] 19) (slow_state 5))
    (update_points (Z.max 1 (py_int ((99 # 8) * (1 # 2)))) (length (repeat (@nil FaceBox) 19))).
Proof.
  apply (missing_face_recentering boxes_shape boxes_detect
           1920 1080 606 1080 (99 # 8) (slow_state 5) (repeat [] 19)).
  - lia.
  - vm_compute. reflexivity.
  - vm_compute. split; discriminate.
  - intros k frame Hk _. apply nth_error_repeat_nil in Hk. now subst frame.
Defined.

(** C6 as stated fails at 12.375 frames per second: the interval is 6 and
    round(24.75) = 25, ceil(24.75 / 6) = 5, yet the fourth consecutive empty
    update point, with a count of 24, already moves the target from 1000
    back to the midpoint 960. *)
Lemma recentering_before_rounded_threshold :
  let st := slow_state 5 in
  let before := fold_left (face_step boxes_shape boxes_detect slow_config)
                          (repeat [] 18) st in
  let after := fold_left (face_step boxes_shape boxes_detect slow_config)
                         (repeat [] 19) st in
  fc_update_interval slow_config = 6
  /\ py_round ((99 # 8) * MISSING_FACE_SECONDS) = 25
  /\ Qceiling (MISSING_FACE_SECONDS * (99 # 8) / 6) = 5
  /\ update_points 6 19 = 4
  /\ (frame_idx st = 6 /\ missing_frames st = 0
      /\ (target_center st == 1000)%Q)
  /\ (missing_frames before = 18 /\ (target_center before == 1000)%Q)
  /\ (missing_frames after = 24 /\ (target_center after == 960)%Q)
  /\ ~ recentered_at (py_round ((99 # 8) * MISSING_FACE_SECONDS)) slow_config
         st after 4.
Proof.
  intros st before after.
  assert (Hafter : missing_frames after = 24 /\ (target_center after == 960)%Q).
  { split; vm_compute; reflexivity. }
  repeat (split; [vm_compute; reflexivity|]).
  split; [split; [|split]; vm_compute; reflexivity|].
  split; [split; vm_compute; reflexivity|].
  split; [exact Hafter|].
  intros [_ Htgt]. destruct Hafter as [_ Hafter].
  rewrite Hafter in Htgt. vm_compute in Htgt. discriminate.
Qed.

Lemma passthrough_without_detection_witness :
  exists r,
    crop_face_tracking boxes_shape boxes_detect (Some narrow_video) = Ok r
    /\ run_detect_calls r = 0%nat
    /\ run_tracking r = None
    /\ run_written r = map (fun _ => (606, 1080)) (cap_frames narrow_video).
Proof.
  apply (passthrough_without_detection boxes_shape boxes_detect
           narrow_video 606 1080).
  - reflexivity.
  - cbn. lia.
Defined.

Lemma quiet_video_keeps_pan_witness :
  smoothed_x (screen_loop tiny_gray no_motion tiny_config
                          (firstn 2 [tt; tt; tt]) screen_init) = 0.
Proof.
  apply (quiet_video_keeps_pan tiny_gray no_motion tiny_config [tt; tt; tt] 2).
  vm_compute. auto.
Defined.

Lemma pan_update_truncates_witness :
  let st := screen_step tiny_gray corner_motion tiny_config screen_init tt in
  let blend := ((9 # 10) * inject_Z (smoothed_x st) + (1 # 10) * inject_Z 2)%Q in
  smoothed_x (screen_step tiny_gray corner_motion tiny_config st tt) = py_int blend
  /\ (Qabs (inject_Z (py_int blend) - blend) < 1)%Q.
Proof.
  intros st.
  apply (pan_update_truncates tiny_gray corner_motion tiny_config st tt tt).
  - reflexivity.
  - reflexivity.
  - repeat constructor.
  - reflexivity.
Defined.

(** C9 as stated fails: on the second frame of the 4 x 4 source the motion
    centroid is column 3, the target is 2, and the new pan is
    int(0.9 * 0 + 0.1 * 2) = 0, not 0.2. *)
Lemma pan_update_not_exact_blend :
  let st := screen_step tiny_gray corner_motion tiny_config screen_init tt in
  let st' := screen_step tiny_gray corner_motion tiny_config st tt in
  let magnitude := corner_motion tt tt in
  screen_frame_idx st mod sc_update_interval tiny_config = 0
  /\ prev_gray st = Some tt
  /\ any_significant magnitude = true
  /\ motion_target_x tiny_config
       (col_motion (sc_scaled_width tiny_config) magnitude) = 2
  /\ smoothed_x st = 0 /\ smoothed_x st' = 0
  /\ ~ exact_blend (smoothed_x st) (smoothed_x st') 2.
Proof.
  intros st st' magnitude.
  repeat (split; [reflexivity|]).
  vm_compute. discriminate.
Qed.

(** * Further properties of the geometry utilities *)

Lemma normalize_faces_normalized (faces : list FaceBox) (fw fh : Z) :
  1 <= fw -> 1 <= fh ->
  Forall (normalized_box fw fh) (normalize_faces faces fw fh).
Proof.
  intros Hw Hh. rewrite normalize_faces_filter_map.
  apply Forall_forall. intros b Hb.
  apply in_map_iff in Hb as (face & <- & Hin).
  apply filter_In in Hin as [_ Hu].
  now apply usable_normalized.
Qed.

(** X1: normalising twice is normalising once: the boxes [normalize_faces]
    returns for a frame of at least one pixel are kept as they are by a
    second pass. *)
Theorem normalize_faces_idempotent (faces : list FaceBox) (fw fh : Z) :
  1 <= fw -> 1 <= fh ->
  normalize_faces (normalize_faces faces fw fh) fw fh
  = normalize_faces faces fw fh.
Proof.
  intros Hw Hh. apply normalize_faces_fixed.
  now apply normalize_faces_normalized.
Qed.

Lemma normalize_faces_idempotent_witness :
  let raw := [mkFace (-5) 3 2000 50 1; mkFace 1900 1000 200 200 (6 # 10);
              mkFace 2500 (-10) 300 2000 (7 # 10)] in
  normalize_faces (normalize_faces raw 1920 1080) 1920 1080
  = normalize_faces raw 1920 1080.
Proof. intro raw. apply (normalize_faces_idempotent raw 1920 1080); lia. Defined.


(** * Further properties of the choice of the face centre *)

(** The first box of the sorted list has the largest area. *)
Lemma insert_by_area_head (face : FaceBox) (l : list FaceBox) :
  (forall g rest, l = g :: rest -> Forall (fun f => face_area f <= face_area g) rest) ->
  forall g rest, insert_by_area face l = g :: rest ->
                 Forall (fun f => face_area f <= face_area g) rest.
Proof.
  intros Hl g rest. destruct l as [|h l]; cbn [insert_by_area].
  - intros [= <- <-]. constructor.
  - specialize (Hl h l eq_refl).
    destruct (Z.leb_spec (face_area h) (face_area face)) as [Hle|Hgt].
    + intros [= <- <-]. constructor; [exact Hle|].
      eapply Forall_impl; [|exact Hl]. cbn. intros f Hf. lia.
    + intros [= <- <-]. apply Forall_forall. intros f Hf.
      apply insert_by_area_In in Hf as [->|Hf]; [lia|].
      rewrite Forall_forall in Hl. now apply Hl.
Qed.

Lemma sorted_by_area_head (faces : list FaceBox) (g : FaceBox)
    (rest : list FaceBox) :
  sorted_by_area faces = g :: rest ->
  In g faces /\ forall f, In f faces -> face_area f <= face_area g.
Proof.
  intros Hsorted.
  assert (Hhead : forall l g rest, sorted_by_area l = g :: rest ->
                    Forall (fun f => face_area f <= face_area g) rest).
  { induction l as [|face l IH]; [discriminate|].
    cbn [sorted_by_area fold_right]. apply insert_by_area_head. exact IH. }
  assert (Hin : forall f, In f faces <-> In f (g :: rest)).
  { intros f. rewrite <- Hsorted. symmetry. apply sorted_by_area_In. }
  split; [apply Hin; now left|].
  intros f Hf. apply Hin in Hf as [<-|Hf]; [lia|].
  specialize (Hhead faces g rest Hsorted). rewrite Forall_forall in Hhead.
  now apply Hhead.
Qed.

Lemma score_step_total (prev : Q) (fw fa : Z) (best : Q) (oc : option Q)
    (face : FaceBox) :
  score_step prev fw fa (best, oc) face
  = if Qlt_bool best (box_total prev fw fa face)
    then (box_total prev fw fa face, Some (box_center face))
    else (best, oc).
Proof. destruct face as [x y w h s]. reflexivity. Qed.

(** The scoring loop keeps the first box of the largest total above its
    starting score. *)
Lemma score_fold_best (prev : Q) (fw fa : Z) (l : list FaceBox) :
  forall (best : Q) (oc : option Q),
    exists best' oc',
      fold_left (score_step prev fw fa) l (best, oc) = (best', oc')
      /\ (best <= best')%Q
      /\ (forall g, In g l -> (box_total prev fw fa g <= best')%Q)
      /\ ((best' = best /\ oc' = oc)
          \/ exists f, In f l /\ best' = box_total prev fw fa f
                       /\ oc' = Some (box_center f)).
Proof.
  induction l as [|face l IH]; intros best oc; cbn [fold_left].
  - exists best, oc. repeat split; [apply Qle_refl | intros g [] | now left].
  - rewrite score_step_total.
    destruct (Qlt_bool best (box_total prev fw fa face)) eqn:E.
    + apply Qlt_bool_iff in E.
      destruct (IH (box_total prev fw fa face) (Some (box_center face)))
        as (b' & oc' & Hfold & Hle & Hall & Hwho).
      exists b', oc'. split; [exact Hfold|]. split; [lra|]. split.
      * intros g [<-|Hg]; [exact Hle | now apply Hall].
      * right. destruct Hwho as [[-> ->]|(f & Hf & -> & ->)].
        -- exists face. repeat split. now left.
        -- exists f. repeat split. now right.
    + assert (Hnot : (box_total prev fw fa face <= best)%Q).
      { destruct (Qlt_le_dec best (box_total prev fw fa face)) as [Hlt|Hle];
          [|exact Hle].
        apply Qlt_bool_iff in Hlt. congruence. }
      destruct (IH best oc) as (b' & oc' & Hfold & Hle & Hall & Hwho).
      exists b', oc'. split; [exact Hfold|]. split; [exact Hle|]. split.
      * intros g [<-|Hg]; [lra | now apply Hall].
      * destruct Hwho as [[-> ->]|(f & Hf & -> & ->)]; [now left|].
        right. exists f. repeat split. now right.
Qed.

Lemma box_total_in_frame (prev : Q) (fw fh : Z) (face : FaceBox) :
  0 < fw -> 0 < fh -> (0 <= prev <= inject_Z fw)%Q ->
  box_of_frame fw fh face ->
  (-1000000000 < box_total prev fw (fw * fh) face)%Q.
Proof.
  intros Hw Hh Hp (Hx & Hbw & Hxw & _ & Hbh & _ & Hs).
  unfold box_total, box_center.
  pose proof (box_center_in_frame fw (box_x face) (box_w face) Hx Hbw Hxw) as Hc.
  assert (Harea : (0 <= truediv (box_w face * box_h face) (fw * fh))%Q).
  { apply truediv_nonneg; nia. }
  pose proof (inject_Z_pos fw Hw) as Hfw.
  assert (Hd : (Qabs (inject_Z (box_x face) + truediv (box_w face) 2 - prev)
                / inject_Z fw <= 1)%Q).
  { apply Qle_shift_div_r; [exact Hfw|].
    apply Qabs_Qle_condition. split; lra. }
  lra.
Qed.

(** In exact arithmetic the scoring branch returns the centre of a box of
    the largest total. *)
Lemma pick_face_center_argmax (faces : list FaceBox) (prev : Q)
    (frame_width frame_height target_width : Z) :
  0 < frame_width -> 0 < frame_height ->
  (0 <= prev <= inject_Z frame_width)%Q ->
  Forall (box_of_frame frame_width frame_height) faces ->
  faces <> [] ->
  group_center (sorted_by_area faces) target_width = None ->
  exists best,
    In best faces
    /\ pick_face_center faces (Some prev) frame_width frame_height target_width
       = Some (py_int (box_center best))
    /\ forall g, In g faces ->
         (box_total prev frame_width (frame_width * frame_height) g
          <= box_total prev frame_width (frame_width * frame_height) best)%Q.
Proof.
  intros Hw Hh Hp Hall Hne Hgroup.
  destruct faces as [|face faces]; [congruence|].
  unfold pick_face_center. rewrite Hgroup.
  destruct (score_fold_best prev frame_width (frame_width * frame_height)
              (sorted_by_area (face :: faces)) (-1000000000)%Q None)
    as (b' & oc' & Hfold & Hle & Hmax & Hwho).
  rewrite Hfold.
  destruct (sorted_by_area_cons face faces) as (g & rest & Hsorted).
  assert (Hg : In g (face :: faces)).
  { apply sorted_by_area_In. rewrite Hsorted. now left. }
  destruct Hwho as [[-> ->]|(best & Hbest & -> & ->)].
  - exfalso. rewrite Forall_forall in Hall.
    pose proof (box_total_in_frame prev frame_width frame_height g Hw Hh Hp
                  (Hall g Hg)) as Hlow.
    specialize (Hmax g). rewrite sorted_by_area_In in Hmax.
    specialize (Hmax Hg). lra.
  - exists best. split; [apply (proj1 (sorted_by_area_In _ _)); exact Hbest|].
    split; [reflexivity|].
    intros f Hf. apply Hmax. now apply sorted_by_area_In.
Qed.

(** X2: with a previous centre within the frame and no group of faces that
    fits, a box of the frame whose score [total] exceeds that of every
    other box by more than 1e-9 is the one chosen: [pick_face_center]
    returns its centre converted to an int. *)
Theorem pick_face_center_clear_winner (faces : list FaceBox) (best : FaceBox)
    (prev : Q) (frame_width frame_height target_width : Z) :
  0 < frame_width -> 0 < frame_height ->
  (0 <= prev <= inject_Z frame_width)%Q ->
  Forall (box_of_frame frame_width frame_height) faces ->
  group_center (sorted_by_area faces) target_width = None ->
  clear_winner prev frame_width frame_height faces best ->
  pick_face_center faces (Some prev) frame_width frame_height target_width
  = Some (py_int (box_center best)).
Proof.
  intros Hw Hh Hp Hall Hgroup [Hin Hwins].
  assert (Hne : faces <> []) by (intros ->; destruct Hin).
  destruct (pick_face_center_argmax faces prev frame_width frame_height
              target_width Hw Hh Hp Hall Hne Hgroup)
    as (f & Hf & Hpick & Hmax).
  destruct (Hwins f Hf) as [_ [->|Hlt]]; [exact Hpick|].
  exfalso. specialize (Hmax best Hin).
  unfold SCORE_MARGIN in Hlt. lra.
Qed.

Lemma pick_face_center_clear_winner_witness :
  pick_face_center [mkFace 100 100 101 100 1; mkFace 700 100 101 150 1]
                   (Some 100%Q) 1920 1080 606
  = Some (py_int (box_center (mkFace 100 100 101 100 1))).
Proof.
  apply (pick_face_center_clear_winner
           [mkFace 100 100 101 100 1; mkFace 700 100 101 150 1]
           (mkFace 100 100 101 100 1) 100 1920 1080 606).
  - lia.
  - lia.
  - split; discriminate.
  - repeat constructor; cbn; try lia; discriminate.
  - reflexivity.
  - split; [now left|].
    intros g [<-|[<-|[]]].
    + split; [discriminate | now left].
    + split; [discriminate | right; vm_compute; reflexivity].
Defined.

(** X3: with no previous centre and no group of faces that fits,
    [pick_face_center] returns the centre, converted to an int, of a box of
    the largest area. *)
Theorem pick_face_center_first_largest (faces : list FaceBox)
    (frame_width frame_height target_width : Z) :
  faces <> [] ->
  group_center (sorted_by_area faces) target_width = None ->
  exists best,
    In best faces
    /\ (forall g, In g faces -> face_area g <= face_area best)
    /\ pick_face_center faces None frame_width frame_height target_width
       = Some (py_int (box_center best)).
Proof.
  intros Hne Hgroup. destruct faces as [|face faces]; [congruence|].
  unfold pick_face_center. rewrite Hgroup.
  destruct (sorted_by_area_cons face faces) as (g & rest & Hsorted).
  rewrite Hsorted.
  destruct (sorted_by_area_head _ _ _ Hsorted) as [Hin Hmax].
  exists g. repeat split; assumption.
Qed.

Lemma pick_face_center_first_largest_witness :
  let faces := [mkFace 100 100 101 100 1; mkFace 700 100 101 150 1] in
  exists best,
    In best faces
    /\ (forall g, In g faces -> face_area g <= face_area best)
    /\ pick_face_center faces None 1920 1080 606
       = Some (py_int (box_center best)).
Proof.
  intro faces. apply (pick_face_center_first_largest faces 1920 1080 606).
  - discriminate.
  - reflexivity.
Defined.

Lemma Qfloor_nonneg (q : Q) : (0 <= q)%Q -> 0 <= Qfloor q.
Proof.
  intros H. rewrite <- (Qfloor_Z 0). now apply Qfloor_resp_le.
Qed.

Lemma Qfloor_le_Z (q : Q) (n : Z) : (q <= inject_Z n)%Q -> Qfloor q <= n.
Proof.
  intros H. rewrite <- (Qfloor_Z n). now apply Qfloor_resp_le.
Qed.

Lemma py_int_between (q : Q) (n : Z) :
  (0 <= q <= inject_Z n)%Q -> 0 <= py_int q <= n.
Proof.
  intros [H0 Hn]. rewrite py_int_nonneg by exact H0. split.
  - now apply Qfloor_nonneg.
  - now apply Qfloor_le_Z.
Qed.

Lemma py_min_list_bounds (a : Z) (l : list Z) (lo : Z) :
  lo <= a -> Forall (fun x => lo <= x) l ->
  lo <= py_min_list a l <= a.
Proof.
  unfold py_min_list. revert a.
  induction l as [|x l IH]; intros a Ha Hall; cbn [fold_left]; [lia|].
  inversion Hall as [|? ? Hx Hl]; subst.
  specialize (IH (Z.min a x) ltac:(lia) Hl). lia.
Qed.

Lemma py_max_list_bounds (a : Z) (l : list Z) (hi : Z) :
  a <= hi -> Forall (fun x => x <= hi) l ->
  a <= py_max_list a l <= hi.
Proof.
  unfold py_max_list. revert a.
  induction l as [|x l IH]; intros a Ha Hall; cbn [fold_left]; [lia|].
  inversion Hall as [|? ? Hx Hl]; subst.
  specialize (IH (Z.max a x) ltac:(lia) Hl). lia.
Qed.

Lemma group_center_within (l : list FaceBox) (fw fh target_width c : Z) :
  Forall (box_of_frame fw fh) l ->
  group_center l target_width = Some c ->
  0 <= c <= fw.
Proof.
  intros Hall. unfold group_center.
  destruct l as [|top [|second rest]]; try discriminate.
  set (group := filter _ _).
  assert (Hgroup : Forall (box_of_frame fw fh) group).
  { apply Forall_forall. intros f Hf. apply filter_In in Hf as [Hf _].
    rewrite Forall_forall in Hall. now apply Hall. }
  destruct group as [|g0 [|g1 more]]; try discriminate.
  destruct (Qle_bool _ _); [|discriminate].
  intros [= <-]. rewrite py_int_half.
  inversion Hgroup as [|? ? Hg0 Htl]; subst.
  destruct Hg0 as (Hx0 & Hw0 & Hxw0 & _).
  cbn [tl].
  assert (Hmin : 0 <= py_min_list (box_x g0) (map box_x (g1 :: more)) <= box_x g0).
  { apply py_min_list_bounds; [exact Hx0|].
    apply Forall_map. eapply Forall_impl; [|exact Htl].
    intros f Hf. apply Hf. }
  assert (Hmax : box_x g0 + box_w g0
                 <= py_max_list (box_x g0 + box_w g0)
                      (map (fun face => box_x face + box_w face) (g1 :: more))
                 <= fw).
  { apply py_max_list_bounds; [exact Hxw0|].
    apply Forall_map. eapply Forall_impl; [|exact Htl].
    intros f Hf. apply Hf. }
  set (min_x := py_min_list _ _) in *. set (max_x := py_max_list _ _) in *.
  rewrite Z.quot_div_nonneg by lia.
  split.
  - apply Z.div_pos; lia.
  - apply Z.div_le_upper_bound; lia.
Qed.

Lemma box_center_within (fw fh : Z) (face : FaceBox) :
  box_of_frame fw fh face -> 0 <= py_int (box_center face) <= fw.
Proof.
  intros (Hx & Hw & Hxw & _). apply py_int_between.
  now apply box_center_in_frame.
Qed.

(** X4: for face boxes of the frame, the centre [pick_face_center] returns
    is a column of the frame: it lies in [0, frame_width]. *)
Theorem pick_face_center_within_frame (faces : list FaceBox)
    (prev_center : option Q) (frame_width frame_height target_width c : Z) :
  Forall (box_of_frame frame_width frame_height) faces ->
  pick_face_center faces prev_center frame_width frame_height target_width
  = Some c ->
  0 <= c <= frame_width.
Proof.
  intros Hall. destruct faces as [|face faces]; [discriminate|].
  assert (Hsorted : Forall (box_of_frame frame_width frame_height)
                           (sorted_by_area (face :: faces))).
  { apply Forall_forall. intros f Hf. apply (proj1 (sorted_by_area_In _ _)) in Hf.
    rewrite Forall_forall in Hall. now apply Hall. }
  unfold pick_face_center.
  destruct (group_center _ _) as [gc|] eqn:Hgroup.
  - intros [= <-]. eapply group_center_within; eauto.
  - destruct prev_center as [prev|].
    + destruct (score_fold_best prev frame_width (frame_width * frame_height)
                  (sorted_by_area (face :: faces)) (-1000000000)%Q None)
        as (b' & oc' & Hfold & _ & _ & Hwho).
      rewrite Hfold.
      destruct Hwho as [[_ ->]|(best & Hbest & _ & ->)]; [discriminate|].
      cbn [option_map]. intros [= <-].
      apply (box_center_within frame_width frame_height).
      rewrite Forall_forall in Hsorted. now apply Hsorted.
    + destruct (sorted_by_area (face :: faces)) as [|best rest]; [discriminate|].
      intros [= <-].
      apply (box_center_within frame_width frame_height).
      now inversion Hsorted.
Qed.

Lemma pick_face_center_within_frame_witness : 0 <= 150 <= 1920.
Proof.
  apply (pick_face_center_within_frame
           [mkFace 100 100 101 100 1; mkFace 700 100 101 150 1]
           (Some 100%Q) 1920 1080 606 150).
  - repeat constructor; cbn; try lia; discriminate.
  - reflexivity.
Defined.

(** * The detector wrapper *)

Lemma py_int_split (u v : Q) (n : Z) :
  (0 <= u)%Q -> (0 <= v)%Q -> (u + v <= inject_Z n)%Q ->
  0 <= py_int u /\ 0 <= py_int v /\ py_int u + py_int v <= n.
Proof.
  intros Hu Hv Hsum. rewrite !py_int_nonneg by assumption.
  split; [now apply Qfloor_nonneg|]. split; [now apply Qfloor_nonneg|].
  rewrite <- (Qfloor_Z (Qfloor u + Qfloor v)).
  apply Qfloor_le_Z. rewrite inject_Z_plus.
  pose proof (Qfloor_le u). pose proof (Qfloor_le v). lra.
Qed.

Lemma of_relative_within (width height : Z) (d : RelativeBox) :
  0 <= width -> 0 <= height -> relative_within d ->
  rect_within width height (FaceDetector.of_relative width height d).
Proof.
  intros Hw Hh (Hx & Hbw & Hxw & Hy & Hbh & Hyh).
  apply inject_Z_nonneg in Hw, Hh.
  unfold rect_within, FaceDetector.of_relative;
    cbn [box_x box_y box_w box_h].
  destruct (py_int_split (rel_xmin d * inject_Z width)
              (rel_width d * inject_Z width) width) as (H1 & H2 & H3);
    [nra | nra | nra |].
  destruct (py_int_split (rel_ymin d * inject_Z height)
              (rel_height d * inject_Z height) height) as (H4 & H5 & H6);
    [nra | nra | nra |].
  repeat split; assumption.
Qed.

Lemma unscale_within (scale : Q) (rw rh width height : Z) (face : FaceBox) :
  (0 < scale)%Q ->
  (inject_Z rw <= inject_Z width * scale)%Q ->
  (inject_Z rh <= inject_Z height * scale)%Q ->
  rect_within rw rh face ->
  rect_within width height (FaceDetector.unscale scale face).
Proof.
  intros Hs Hrw Hrh (Hx & Hbw & Hxw & Hy & Hbh & Hyh).
  unfold rect_within, FaceDetector.unscale; cbn [box_x box_y box_w box_h].
  assert (Hdiv : forall a b r n : Z,
             0 <= a -> 0 <= b -> a + b <= r ->
             (inject_Z r <= inject_Z n * scale)%Q ->
             (0 <= inject_Z a / scale)%Q /\ (0 <= inject_Z b / scale)%Q
             /\ (inject_Z a / scale + inject_Z b / scale <= inject_Z n)%Q).
  { intros a b r n Ha Hb Hab Hr.
    apply inject_Z_nonneg in Ha, Hb.
    assert (Habr : (inject_Z a + inject_Z b <= inject_Z r)%Q).
    { rewrite <- inject_Z_plus, <- Zle_Qle. exact Hab. }
    split; [apply Qle_shift_div_l; lra|].
    split; [apply Qle_shift_div_l; lra|].
    setoid_replace (inject_Z a / scale + inject_Z b / scale)%Q
      with ((inject_Z a + inject_Z b) / scale)%Q by (field; lra).
    apply Qle_shift_div_r; lra. }
  destruct (Hdiv _ _ _ _ Hx Hbw Hxw Hrw) as (U1 & U2 & U3).
  destruct (Hdiv _ _ _ _ Hy Hbh Hyh Hrh) as (V1 & V2 & V3).
  destruct (py_int_split _ _ _ U1 U2 U3) as (H1 & H2 & H3).
  destruct (py_int_split _ _ _ V1 V2 V3) as (H4 & H5 & H6).
  repeat split; assumption.
Qed.

Lemma resize_for_detection_scale (height width max_width : Z) :
  0 < max_width -> 0 < width -> 0 <= height ->
  let '((rh, rw), scale) := resize_for_detection (height, width) max_width in
  (0 < scale <= 1)%Q /\ 0 <= rw <= max_width /\ 0 <= rh <= height
  /\ (inject_Z rw <= inject_Z width * scale)%Q
  /\ (inject_Z rh <= inject_Z height * scale)%Q
  /\ (Qeq_bool scale 1 = true -> (rh, rw) = (height, width)).
Proof.
  intros Hm Hw Hh. unfold resize_for_detection.
  pose proof (inject_Z_pos _ Hm) as Hm'. pose proof (inject_Z_pos _ Hw) as Hw'.
  pose proof (inject_Z_nonneg _ Hh) as Hh'.
  destruct (Z.leb_spec width max_width) as [Hle|Hgt].
  - repeat split; try lia; try lra.
  - set (scale := truediv max_width width).
    assert (Hs : (0 < scale)%Q).
    { unfold scale, truediv. apply Qlt_shift_div_l; lra. }
    assert (Hlt : (scale < 1)%Q).
    { unfold scale, truediv. apply Qlt_shift_div_r; [lra|].
      rewrite Qmult_1_l, <- Zlt_Qlt. lia. }
    assert (Hws : (inject_Z width * scale == inject_Z max_width)%Q).
    { unfold scale, truediv. field. lra. }
    assert (Hhs : (0 <= inject_Z height * scale <= inject_Z height)%Q) by nra.
    rewrite !py_int_nonneg by lra.
    pose proof (Qfloor_le (inject_Z width * scale)) as F1.
    pose proof (Qfloor_le (inject_Z height * scale)) as F2.
    assert (G1 : 0 <= Qfloor (inject_Z width * scale) <= max_width).
    { split; [apply Qfloor_nonneg | apply Qfloor_le_Z]; lra. }
    assert (G2 : 0 <= Qfloor (inject_Z height * scale) <= height).
    { split; [apply Qfloor_nonneg | apply Qfloor_le_Z]; lra. }
    repeat split; try lia; try lra.
    intros Heq. apply Qeq_bool_iff in Heq. lra.
Qed.

(** X21: [resize_for_detection] never enlarges a frame and never hands the
    model a frame wider than [max_width]: the scale is in (0, 1], the
    resized width is at most [max_width] and at most the width, the resized
    height at most the height, and a frame that is narrow enough is passed
    as it is with scale 1. *)
Theorem resize_for_detection_bounds (height width max_width : Z) :
  0 < max_width -> 0 < width -> 0 <= height ->
  let resized := fst (resize_for_detection (height, width) max_width) in
  let scale := snd (resize_for_detection (height, width) max_width) in
  (0 < scale <= 1)%Q
  /\ 0 <= snd resized <= Z.min max_width width
  /\ 0 <= fst resized <= height
  /\ (width <= max_width -> resized = (height, width) /\ scale = 1%Q).
Proof.
  intros Hm Hw Hh resized scale.
  pose proof (resize_for_detection_scale height width max_width Hm Hw Hh) as H.
  assert (Hsmall : width <= max_width ->
                   resize_for_detection (height, width) max_width
                   = ((height, width), 1%Q)).
  { intros Hle. unfold resize_for_detection.
    apply Z.leb_le in Hle. now rewrite Hle. }
  subst resized scale.
  destruct (resize_for_detection (height, width) max_width) as [[rh rw] sc].
  cbn [fst snd]. destruct H as (Hs & Hrw & Hrh & Hws & _ & _).
  split; [exact Hs|]. split; [|split; [exact Hrh|]].
  - split; [lia|]. apply Z.min_glb; [lia|].
    rewrite Zle_Qle. pose proof (inject_Z_pos width Hw). nra.
  - intros Hle. specialize (Hsmall Hle). now injection Hsmall as -> -> ->.
Qed.

Lemma resize_for_detection_bounds_witness :
  let resized := fst (resize_for_detection (1080, 1920) 640) in
  let scale := snd (resize_for_detection (1080, 1920) 640) in
  (0 < scale <= 1)%Q
  /\ 0 <= snd resized <= Z.min 640 1920
  /\ 0 <= fst resized <= 1080
  /\ (1920 <= 640 -> resized = (1080, 1920) /\ scale = 1%Q).
Proof. apply (resize_for_detection_bounds 1080 1920 640); lia. Defined.

Section DetectorFacts.

Context {Frame : Type}.
Variable frame_shape : Frame -> Z * Z.
Variable mediapipe_process : Frame -> Z * Z -> list RelativeBox.
Variable detectMultiScale : Frame -> Z * Z -> list (Z * Z * Z * Z).

(** X5: [FaceDetector.detect] returns boxes of the frame: if the detection
    model answers, on the frame resized for detection, with relative boxes
    inside the unit square (mediapipe) or with rectangles inside the resized
    frame (Haar cascade), then every box returned, scaled back or not, is a
    rectangle with non-negative sides inside the original frame. *)
Theorem detect_within_frame (kind : DetectorKind) (frame : Frame)
    (height width : Z) :
  frame_shape frame = (height, width) ->
  0 < width -> 0 <= height ->
  let resized := fst (resize_for_detection (height, width) DETECTION_MAX_WIDTH) in
  Forall relative_within (mediapipe_process frame resized) ->
  Forall (fun r => rect_within (snd resized) (fst resized)
                               (FaceDetector.of_rectangle r))
         (detectMultiScale frame resized) ->
  Forall (rect_within width height)
         (FaceDetector.detect frame_shape mediapipe_process detectMultiScale
                              kind frame).
Proof.
  intros Hshape Hw Hh resized Hmp Hhaar. unfold FaceDetector.detect.
  rewrite Hshape.
  pose proof (resize_for_detection_scale height width DETECTION_MAX_WIDTH
                ltac:(reflexivity) Hw Hh) as Hres.
  subst resized.
  destruct (resize_for_detection (height, width) DETECTION_MAX_WIDTH)
    as [[rh rw] scale].
  cbn [fst snd] in Hmp, Hhaar.
  destruct Hres as ([Hs _] & Hrw & Hrh & Hws & Hhs & Hone).
  assert (Hfaces : Forall (rect_within rw rh)
            match kind with
            | MediapipeKind =>
                map (FaceDetector.of_relative rw rh)
                    (mediapipe_process frame (rh, rw))
            | HaarKind =>
                map FaceDetector.of_rectangle (detectMultiScale frame (rh, rw))
            end).
  { destruct kind.
    - apply Forall_map. eapply Forall_impl; [|apply Hmp].
      intros d Hd. apply of_relative_within; [lia | lia | exact Hd].
    - apply Forall_map. apply Hhaar. }
  destruct (Qeq_bool scale 1) eqn:E; cbn [negb].
  - specialize (Hone eq_refl). injection Hone as -> ->. exact Hfaces.
  - apply Forall_map. eapply Forall_impl; [|exact Hfaces].
    intros f Hf. now apply (unscale_within scale rw rh).
Qed.

End DetectorFacts.

Lemma detect_within_frame_witness :
  Forall (rect_within 1920 1080)
         (FaceDetector.detect (fun _ : unit => (1080, 1920))
            (fun _ _ => [mkRelativeBox (1 # 4) (1 # 4) (1 # 2) (3 # 4) None])
            (fun _ _ => [(100, 50, 200, 200)])
            HaarKind tt).
Proof.
  apply (detect_within_frame (fun _ : unit => (1080, 1920))
           (fun _ _ => [mkRelativeBox (1 # 4) (1 # 4) (1 # 2) (3 # 4) None])
           (fun _ _ => [(100, 50, 200, 200)]) HaarKind tt 1080 1920).
  - reflexivity.
  - lia.
  - lia.
  - repeat constructor; cbn; discriminate.
  - repeat constructor; cbn; lia.
Defined.

(** * Mode selector *)

Section ModeSelector.

Context {Frame : Type}.
Variable frame_shape : Frame -> Z * Z.
Variable detect : Frame -> list FaceBox.

Lemma sample_center_usable (frame : Frame) :
  has_usable_face frame_shape detect frame
  <-> exists c, sample_center frame_shape detect frame = Some c.
Proof.
  unfold has_usable_face, sample_center.
  destruct (frame_shape frame) as [height width]; cbn [fst snd].
  destruct (normalize_faces (detect frame) width height) as [|face faces].
  - split; [congruence | intros [c Hc]; discriminate].
  - destruct (sorted_by_area_cons face faces) as (g & rest & ->).
    split; [eauto | discriminate].
Qed.

Lemma sample_at_prefix (frames : list Frame) (max_samples : Z)
    (indices : list Z) (centers : list Z) :
  exists more,
    sample_at frame_shape detect frames max_samples indices centers
    = centers ++ more.
Proof.
  revert centers. induction indices as [|idx indices IH]; intros centers;
    cbn [sample_at].
  - exists []. now rewrite app_nil_r.
  - destruct (nth_error frames (Z.to_nat idx)) as [frame|]; [|apply IH].
    destruct (sample_center frame_shape detect frame) as [c|]; [|apply IH].
    destruct (_ >=? _).
    + now exists [c].
    + destruct (IH (centers ++ [c])) as [more ->].
      exists (c :: more). now rewrite <- app_assoc.
Qed.

Lemma sample_first_prefix (frames : list Frame) (max_samples frame_count : Z)
    (centers : list Z) :
  exists more,
    sample_first frame_shape detect frames max_samples frame_count centers
    = centers ++ more.
Proof.
  revert frame_count centers.
  induction frames as [|frame frames IH]; intros frame_count centers;
    cbn [sample_first].
  - exists []. now rewrite app_nil_r.
  - destruct (frame_count <? max_samples); [|exists []; now rewrite app_nil_r].
    destruct (sample_center frame_shape detect frame) as [c|]; [|apply IH].
    destruct (IH (frame_count + 1) (centers ++ [c])) as [more ->].
    exists (c :: more). now rewrite <- app_assoc.
Qed.

Lemma sample_at_length (frames : list Frame) (max_samples : Z)
    (indices : list Z) (centers : list Z) :
  Z.of_nat (length centers) < max_samples ->
  Z.of_nat (length (sample_at frame_shape detect frames max_samples
                              indices centers)) <= max_samples.
Proof.
  revert centers. induction indices as [|idx indices IH]; intros centers Hlen;
    cbn [sample_at]; [lia|].
  destruct (nth_error frames (Z.to_nat idx)) as [frame|]; [|now apply IH].
  destruct (sample_center frame_shape detect frame) as [c|]; [|now apply IH].
  assert (Hc : Z.of_nat (length (centers ++ [c])) = Z.of_nat (length centers) + 1).
  { rewrite length_app. cbn [length]. lia. }
  destruct (Z.geb_spec (Z.of_nat (length (centers ++ [c]))) max_samples).
  - lia.
  - apply IH. lia.
Qed.

Lemma sample_first_length (frames : list Frame) (max_samples frame_count : Z)
    (centers : list Z) :
  frame_count <= max_samples ->
  Z.of_nat (length (sample_first frame_shape detect frames max_samples
                                 frame_count centers))
  <= Z.of_nat (length centers) + (max_samples - frame_count).
Proof.
  revert frame_count centers.
  induction frames as [|frame frames IH]; intros frame_count centers Hle;
    cbn [sample_first]; [lia|].
  destruct (Z.ltb_spec frame_count max_samples); [|lia].
  specialize (IH (frame_count + 1)).
  destruct (sample_center frame_shape detect frame) as [c|].
  - specialize (IH (centers ++ [c]) ltac:(lia)).
    rewrite length_app in IH. cbn [length] in IH. lia.
  - specialize (IH centers ltac:(lia)). lia.
Qed.

(** X6: [detect_face_centers] returns at most [max_samples] centres
    (for [max_samples >= 1]), whatever the video and its reported frame
    count. *)
Theorem detect_face_centers_at_most (video : option (Video Frame))
    (max_samples : Z) :
  1 <= max_samples ->
  Z.of_nat (length (detect_face_centers frame_shape detect video max_samples))
  <= max_samples.
Proof.
  intros Hmax. unfold detect_face_centers.
  destruct video as [cap|]; [|cbn; lia].
  destruct (cap_frame_count cap >? 0).
  - apply sample_at_length. cbn. lia.
  - pose proof (sample_first_length (cap_frames cap) max_samples 0 []
                  ltac:(lia)) as H.
    cbn [length] in H. lia.
Qed.




Lemma linspace_int_first (stop num : Z) :
  1 <= num -> exists rest, linspace_int stop num = 0 :: rest.
Proof.
  intros Hnum. unfold linspace_int.
  destruct (Z.eqb_spec num 1); [now exists []|].
  destruct (Z.to_nat num) as [|k] eqn:E; [lia|].
  cbn [seq map]. eexists. f_equal.
Qed.

(** X8: when the first frame of a video shows a usable face,
    [detect_face_centers] returns at least one centre and auto mode selects
    the face planner, whatever frame count the video reports. *)
Theorem face_on_first_frame_selects_face (cap : Video Frame) (first : Frame)
    (rest : list Frame) :
  cap_frames cap = first :: rest ->
  has_usable_face frame_shape detect first ->
  detect_face_centers frame_shape detect (Some cap) 12 <> []
  /\ select_mode frame_shape detect Auto (Some cap) = FaceMode.
Proof.
  intros Hframes Hface.
  apply sample_center_usable in Hface as [c Hc].
  assert (H : exists more,
             detect_face_centers frame_shape detect (Some cap) 12 = c :: more).
  { unfold detect_face_centers. rewrite Hframes.
    destruct (Z.gtb_spec (cap_frame_count cap) 0) as [Hpos|Hnon].
    - destruct (linspace_int_first (cap_frame_count cap - 1)
                  (Z.min 12 (cap_frame_count cap)) ltac:(lia)) as [idxs ->].
      cbn [sample_at Z.to_nat nth_error]. rewrite Hc.
      cbn [app length Z.of_nat]. 
      replace (Z.pos (Pos.of_succ_nat 0) >=? 12) with false by reflexivity.
      destruct (sample_at_prefix (first :: rest) 12 idxs [c]) as [more ->].
      now exists more.
    - cbn [sample_first]. replace (0 <? 12) with true by reflexivity.
      rewrite Hc. cbn [app].
      destruct (sample_first_prefix rest 12 (0 + 1) [c]) as [more ->].
      now exists more. }
  destruct H as [more H]. split; [rewrite H; discriminate|].
  unfold select_mode. now rewrite H.
Qed.

End ModeSelector.

Lemma detect_face_centers_at_most_witness :
  Z.of_nat (length (detect_face_centers boxes_shape boxes_detect
                      (Some (mkVideo 1920 1080 30 26 (face_then_nothing 25))) 12))
  <= 12.
Proof.
  apply (detect_face_centers_at_most boxes_shape boxes_detect
           (Some (mkVideo 1920 1080 30 26 (face_then_nothing 25))) 12).
  lia.
Defined.


Lemma face_on_first_frame_selects_face_witness :
  let cap := mkVideo 1920 1080 30 26 (face_then_nothing 25) in
  detect_face_centers boxes_shape boxes_detect (Some cap) 12 <> []
  /\ select_mode boxes_shape boxes_detect Auto (Some cap) = FaceMode.
Proof.
  intro cap.
  apply (face_on_first_frame_selects_face boxes_shape boxes_detect cap
           [mkFace 850 400 300 300 (9 # 10)] (repeat [] 25)).
  - reflexivity.
  - unfold has_usable_face. vm_compute. discriminate.
Defined.

(** * Inputs the planners reject *)

Lemma round_down_even_ge_2 (n : Z) : 2 <= round_down_even n <-> 2 <= n.
Proof.
  unfold round_down_even.
  pose proof (Z.mod_pos_bound n 2 ltac:(lia)) as Hm.
  pose proof (Z.div_mod n 2 ltac:(lia)) as Hd.
  split; intros H; [lia|].
  assert (1 <= n / 2) by (apply Z.div_le_lower_bound; lia). lia.
Qed.

Lemma nine_sixteenths_ge_2 (height : Z) :
  0 <= height -> (2 <= height * 9 / 16 <-> 4 <= height).
Proof.
  intros H0. split; intros H.
  - destruct (Z.le_gt_cases 4 height) as [|Hlt]; [assumption|].
    assert (Hsmall : height * 9 / 16 < 2)
      by (apply Z.div_lt_upper_bound; lia).
    lia.
  - apply Z.div_le_lower_bound; lia.
Qed.

Lemma face_target_size_ok_iff (width height : Z) :
  2 <= width -> 2 <= height ->
  (exists size, face_target_size width height = Ok size) <-> 4 <= height.
Proof.
  intros Hw Hh. unfold face_target_size.
  rewrite nine_sixteenths by lia.
  set (a := height * 9 / 16).
  assert (Hcap : (if a >? width then width else a) = Z.min a width).
  { destruct (Z.gtb_spec a width); lia. }
  rewrite Hcap. fold (round_down_even (Z.min a width)).
  fold (round_down_even height).
  pose proof (round_down_even_ge_2 (Z.min a width)) as Hrw.
  pose proof (round_down_even_ge_2 height) as Hrh.
  pose proof (nine_sixteenths_ge_2 height ltac:(lia)) as Ha. fold a in Ha.
  destruct (Z.ltb_spec (round_down_even (Z.min a width)) 2);
    destruct (Z.ltb_spec (round_down_even height) 2); cbn [orb].
  - split; [intros [s Hs]; discriminate | lia].
  - split; [intros [s Hs]; discriminate | lia].
  - split; [intros [s Hs]; discriminate | lia].
  - split; [lia | eauto].
Qed.

Lemma screen_target_size_ok_iff (width height : Z) :
  2 <= height ->
  (exists size, screen_target_size width height = Ok size) <-> 4 <= height.
Proof.
  intros Hh. unfold screen_target_size.
  rewrite nine_sixteenths by lia.
  set (a := height * 9 / 16).
  fold (round_down_even a). fold (round_down_even height).
  pose proof (round_down_even_ge_2 a) as Hrw.
  pose proof (round_down_even_ge_2 height) as Hrh.
  pose proof (nine_sixteenths_ge_2 height ltac:(lia)) as Ha. fold a in Ha.
  destruct (Z.ltb_spec (round_down_even a) 2);
    destruct (Z.ltb_spec (round_down_even height) 2); cbn [orb].
  - split; [intros [s Hs]; discriminate | lia].
  - split; [intros [s Hs]; discriminate | lia].
  - split; [intros [s Hs]; discriminate | lia].
  - split; [lia | eauto].
Qed.

Lemma ensure_valid_dimensions_raises (width height : Z) :
  ~ (2 <= width /\ 2 <= height) ->
  exists msg, ensure_valid_dimensions width height = Raise msg.
Proof.
  intros H. unfold ensure_valid_dimensions.
  destruct (Z.ltb_spec width 2); destruct (Z.ltb_spec height 2); cbn [orb];
    eauto.
  exfalso. apply H. lia.
Qed.

Section RejectedInputs.

Context {Frame Gray : Type}.
Variable frame_shape : Frame -> Z * Z.
Variable detect : Frame -> list FaceBox.
Variable to_gray : Z -> Z -> Frame -> Gray.
Variable flow_magnitude : Gray -> Gray -> list (list Q).

Lemma face_planner_ok_only_if (cap : Video Frame) (r : FaceRun) :
  crop_face_tracking frame_shape detect (Some cap) = Ok r ->
  2 <= cap_width cap /\ 4 <= cap_height cap.
Proof.
  unfold crop_face_tracking.
  destruct (Z.le_gt_cases 2 (cap_width cap)) as [Hw|Hw];
    [destruct (Z.le_gt_cases 2 (cap_height cap)) as [Hh|Hh]|].
  - rewrite (ensure_valid_dimensions_ok _ _ Hw Hh). cbn [bind].
    pose proof (face_target_size_ok_iff _ _ Hw Hh) as Hface.
    destruct (face_target_size _ _) as [[tw th]|msg]; cbn [bind];
      [|discriminate].
    intros _. split; [lia | apply Hface; eauto].
  - destruct (ensure_valid_dimensions_raises (cap_width cap) (cap_height cap))
      as [msg ->]; [lia|]. discriminate.
  - destruct (ensure_valid_dimensions_raises (cap_width cap) (cap_height cap))
      as [msg ->]; [lia|]. discriminate.
Qed.

Lemma screen_planner_ok_only_if (cap : Video Frame) (st : ScreenState Gray) :
  crop_screen_tracking to_gray flow_magnitude (Some cap) = Ok st ->
  2 <= cap_width cap /\ 4 <= cap_height cap.
Proof.
  unfold crop_screen_tracking.
  destruct (Z.le_gt_cases 2 (cap_width cap)) as [Hw|Hw];
    [destruct (Z.le_gt_cases 2 (cap_height cap)) as [Hh|Hh]|].
  - rewrite (ensure_valid_dimensions_ok _ _ Hw Hh). cbn [bind].
    pose proof (screen_target_size_ok_iff (cap_width cap) _ Hh) as Hscreen.
    destruct (screen_target_size _ _) as [[tw th]|msg]; cbn [bind];
      [|discriminate].
    intros _. split; [lia | apply Hscreen; eauto].
  - destruct (ensure_valid_dimensions_raises (cap_width cap) (cap_height cap))
      as [msg ->]; [lia|]. discriminate.
  - destruct (ensure_valid_dimensions_raises (cap_width cap) (cap_height cap))
      as [msg ->]; [lia|]. discriminate.
Qed.

(** X9: both planners reject small sources before any frame is read: a
    video that opens with a width below 2 or a height below 4 makes each of
    them raise (invalid dimensions below 2; invalid crop size for heights 2
    and 3, where 9/16 of the height rounds down to 0). *)
Theorem planners_reject_small (cap : Video Frame) :
  cap_width cap < 2 \/ cap_height cap < 4 ->
  (exists msg, crop_face_tracking frame_shape detect (Some cap) = Raise msg)
  /\ (exists msg,
        crop_screen_tracking to_gray flow_magnitude (Some cap) = Raise msg).
Proof.
  intros Hsmall. split.
  - destruct (crop_face_tracking frame_shape detect (Some cap)) as [r|msg] eqn:E;
      [|eauto].
    exfalso. pose proof (face_planner_ok_only_if cap r E). lia.
  - destruct (crop_screen_tracking to_gray flow_magnitude (Some cap))
      as [st|msg] eqn:E; [|eauto].
    exfalso. pose proof (screen_planner_ok_only_if cap st E). lia.
Qed.

(** X20: [main] succeeds only on an input that opens with a width of at
    least 2 and a height of at least 4, whatever the mode. *)
Theorem main_succeeds_only_if (mode : Mode) (input : option (Video Frame))
    (out : Output Gray) :
  main frame_shape detect to_gray flow_magnitude mode input = Ok out ->
  exists cap, input = Some cap
              /\ 2 <= cap_width cap /\ 4 <= cap_height cap.
Proof.
  unfold main. destruct input as [cap|].
  - intros Hmain. exists cap. split; [reflexivity|].
    destruct (select_mode frame_shape detect mode (Some cap)).
    + destruct (crop_screen_tracking _ _ _) as [st|msg] eqn:E;
        cbn [bind] in Hmain; [|discriminate].
      exact (screen_planner_ok_only_if cap st E).
    + destruct (crop_face_tracking _ _ _) as [r|msg] eqn:E;
        cbn [bind] in Hmain; [|discriminate].
      exact (face_planner_ok_only_if cap r E).
    + destruct (crop_screen_tracking _ _ _) as [st|msg] eqn:E;
        cbn [bind] in Hmain; [|discriminate].
      exact (screen_planner_ok_only_if cap st E).
  - destruct (select_mode frame_shape detect mode None); cbn; discriminate.
Qed.

End RejectedInputs.

Lemma planners_reject_small_witness :
  (exists msg,
     crop_face_tracking (fun _ : unit => (3, 1920)) (fun _ => [])
       (Some (mkVideo 1920 3 30 1 [tt])) = Raise msg)
  /\ (exists msg,
        crop_screen_tracking tiny_gray no_motion
          (Some (mkVideo 1920 3 30 1 [tt])) = Raise msg).
Proof.
  apply (planners_reject_small (fun _ : unit => (3, 1920)) (fun _ => [])
           tiny_gray no_motion (mkVideo 1920 3 30 1 [tt])).
  right. cbn. lia.
Defined.

Lemma main_succeeds_only_if_witness :
  exists cap, Some narrow_video = Some cap
              /\ 2 <= cap_width cap /\ 4 <= cap_height cap.
Proof.
  apply (main_succeeds_only_if boxes_shape boxes_detect
           (fun _ _ (_ : list FaceBox) => tt) (fun _ _ => [])
           FaceMode (Some narrow_video)
           (FaceOutput
              {| run_written := [(606, 1080); (606, 1080)];
                 run_detect_calls := 0;
                 run_tracking := None |})).
  reflexivity.
Defined.

(** The divisions of the planners have non-zero divisors on the inputs they
    accept: the rate is positive, and so is [target_display_width]. *)
Lemma resolve_fps_positive {Frame : Type} (cap : Video Frame) :
  (0 < resolve_fps cap)%Q.
Proof.
  unfold resolve_fps. destruct (Qle_bool (cap_fps cap) 0) eqn:E.
  - reflexivity.
  - destruct (Qlt_le_dec 0 (cap_fps cap)) as [H|H]; [exact H|].
    apply Qle_bool_iff in H. congruence.
Qed.

Lemma target_display_width_positive (width : Z) :
  2 <= width -> 1 <= py_int (inject_Z width * (67 # 100)).
Proof.
  intros Hw.
  assert (H : (1 <= inject_Z width * (67 # 100))%Q).
  { assert (2 <= inject_Z width)%Q by (rewrite <- (Zle_Qle 2); exact Hw). lra. }
  rewrite py_int_nonneg by lra.
  rewrite <- (Qfloor_Z 1). now apply Qfloor_resp_le.
Qed.

(** * Further properties of the face-tracking planner *)

Lemma py_round_near (q : Q) : (Qabs (inject_Z (py_round q) - q) <= 1 # 2)%Q.
Proof.
  unfold py_round.
  pose proof (Qfloor_le q) as H1. pose proof (Qlt_floor q) as H2.
  rewrite inject_Z_plus in H2. change (inject_Z 1) with 1%Q in H2.
  apply Qabs_Qle_condition.
  destruct (Qcompare_spec (q - inject_Z (Qfloor q)) (1 # 2)) as [E|E|E].
  - destruct (Z.even (Qfloor q)).
    + split; lra.
    + rewrite inject_Z_plus. change (inject_Z 1) with 1%Q. split; lra.
  - split; lra.
  - rewrite inject_Z_plus. change (inject_Z 1) with 1%Q. split; lra.
Qed.

Lemma py_round_between (q : Q) (lo hi : Z) :
  (inject_Z lo <= q <= inject_Z hi)%Q -> lo <= py_round q <= hi.
Proof.
  intros [Hlo Hhi]. unfold py_round.
  pose proof (Qfloor_le q) as H1. pose proof (Qlt_floor q) as H2.
  assert (Hf : lo <= Qfloor q <= hi).
  { split.
    - rewrite <- (Qfloor_Z lo). now apply Qfloor_resp_le.
    - rewrite <- (Qfloor_Z hi). now apply Qfloor_resp_le. }
  assert (Hup : (inject_Z (Qfloor q) < q)%Q -> Qfloor q + 1 <= hi).
  { intros Hlt. enough (Qfloor q < hi) by lia.
    rewrite Zlt_Qlt. lra. }
  destruct (Qcompare_spec (q - inject_Z (Qfloor q)) (1 # 2)) as [E|E|E].
  - destruct (Z.even (Qfloor q)); [lia|].
    split; [lia|]. apply Hup. lra.
  - lia.
  - split; [lia|]. apply Hup. lra.
Qed.

(** X10: the crop window of the face planner is inside the frame: for a
    target no larger than the source, the left edge computed from any
    smoothed centre satisfies 0 <= crop_x and crop_x + target_width <= width,
    so the slice of a frame of the reported size is exactly
    target_width x target_height and needs no resize. *)
Theorem face_crop_window_inside (c : FaceConfig) (smoothed : Q) :
  0 <= fc_target_width c <= fc_width c ->
  0 <= fc_target_height c <= fc_height c ->
  let crop_x := face_crop_x c smoothed in
  0 <= crop_x
  /\ crop_x + fc_target_width c <= fc_width c
  /\ slice_shape (fc_height c, fc_width c) (fc_target_height c)
                 crop_x (crop_x + fc_target_width c)
     = (fc_target_height c, fc_target_width c).
Proof.
  intros Hw Hh crop_x.
  assert (Hx : 0 <= crop_x <= fc_width c - fc_target_width c).
  { unfold crop_x, face_crop_x. apply clamp_Z_bounds. lia. }
  split; [lia|]. split; [lia|].
  unfold slice_shape. f_equal; lia.
Qed.

Lemma face_crop_window_inside_witness :
  let crop_x := face_crop_x slow_config (4000 # 3) in
  0 <= crop_x
  /\ crop_x + 606 <= 1920
  /\ slice_shape (1080, 1920) 1080 crop_x (crop_x + 606) = (1080, 606).
Proof.
  apply (face_crop_window_inside slow_config (4000 # 3)); cbn; lia.
Defined.

(** X11: while the smoothed centre is in its range, the crop follows it to
    within half a pixel: the clamp of line 342 changes nothing and
    [crop_x] is [smoothed_center - target_width / 2] rounded. *)
Theorem face_crop_follows_center (c : FaceConfig) (smoothed : Q) :
  center_range c smoothed ->
  face_crop_x c smoothed = py_round (smoothed - truediv (fc_target_width c) 2)
  /\ (Qabs (inject_Z (face_crop_x c smoothed)
            - (smoothed - truediv (fc_target_width c) 2)) <= 1 # 2)%Q.
Proof.
  intros [Hlo Hhi].
  assert (Hfix : face_crop_x c smoothed
                 = py_round (smoothed - truediv (fc_target_width c) 2)).
  { unfold face_crop_x, clamp; cbn [pmax pmin PyOrd_Z].
    pose proof (py_round_between (smoothed - truediv (fc_target_width c) 2)
                  0 (fc_width c - fc_target_width c)) as Hr.
    assert (Hhalf : (truediv (fc_target_width c) 2 * 2
                     == inject_Z (fc_target_width c))%Q).
    { unfold truediv. change (inject_Z 2) with 2%Q. field. }
    unfold Z.sub in Hr. rewrite inject_Z_plus, inject_Z_opp in Hr.
    change (inject_Z 0) with 0%Q in Hr.
    specialize (Hr ltac:(split; lra)). lia. }
  split; [exact Hfix|]. rewrite Hfix. apply py_round_near.
Qed.

Lemma face_crop_follows_center_witness :
  face_crop_x slow_config (4000 # 3)
  = py_round ((4000 # 3) - truediv 606 2)
  /\ (Qabs (inject_Z (face_crop_x slow_config (4000 # 3))
            - ((4000 # 3) - truediv 606 2)) <= 1 # 2)%Q.
Proof.
  apply (face_crop_follows_center slow_config (4000 # 3)).
  vm_compute. split; discriminate.
Defined.

Section FacePlannerMore.

Context {Frame : Type}.
Variable frame_shape : Frame -> Z * Z.
Variable detect : Frame -> list FaceBox.

(** What one iteration adds to the instruments and to the frame index, and
    how it moves the smoothed centre. *)
Lemma face_step_effects (c : FaceConfig) (st : FaceState) (frame : Frame) :
  let st' := face_step frame_shape detect c st frame in
  frame_idx st' = frame_idx st + 1
  /\ frames_written st'
     = frames_written st ++ [(fc_target_width c, fc_target_height c)]
  /\ detect_calls st'
     = (if frame_idx st mod fc_update_interval c =? 0
        then S (detect_calls st) else detect_calls st)
  /\ (smoothed_center st'
      == smoothed_center st
         + (target_center st' - smoothed_center st) * fc_smoothing c)%Q.
Proof.
  unfold face_step.
  destruct (if frame_idx st mod fc_update_interval c =? 0 then _ else _)
    as [target missing].
  cbn [frame_idx frames_written detect_calls smoothed_center target_center].
  split; [reflexivity|]. split.
  - f_equal. f_equal.
    set (cropped := slice_shape _ _ _ _).
    destruct (Z.eqb_spec (snd cropped) (fc_target_width c)) as [E1|E1];
      destruct (Z.eqb_spec (fst cropped) (fc_target_height c)) as [E2|E2];
      cbn [negb orb fst snd]; congruence.
  - split; [reflexivity | apply Qred_correct].
Qed.

(** The frame an iteration writes is the slice at [face_crop_x] of the new
    smoothed centre, resized when its shape is not the target's. *)
Lemma face_step_crop (c : FaceConfig) (st : FaceState) (frame : Frame) :
  let st' := face_step frame_shape detect c st frame in
  let crop_x := face_crop_x c (smoothed_center st') in
  frames_written st'
  = frames_written st
    ++ [let cropped :=
          slice_shape (frame_shape frame) (fc_target_height c)
                      crop_x (crop_x + fc_target_width c) in
        let cropped :=
          if negb (snd cropped =? fc_target_width c)
             || negb (fst cropped =? fc_target_height c)
          then (fc_target_height c, fc_target_width c) else cropped in
        (snd cropped, fst cropped)].
Proof.
  unfold face_step.
  destruct (if frame_idx st mod fc_update_interval c =? 0 then _ else _)
    as [target missing].
  reflexivity.
Qed.

Lemma face_run_effects (c : FaceConfig) (frames : list Frame) :
  1 <= fc_update_interval c ->
  forall (seen : nat) (st : FaceState),
    frame_idx st = Z.of_nat seen ->
    Z.of_nat (detect_calls st) = update_points (fc_update_interval c) seen ->
    let st' := fold_left (face_step frame_shape detect c) frames st in
    frames_written st'
    = frames_written st
      ++ map (fun _ => (fc_target_width c, fc_target_height c)) frames
    /\ Z.of_nat (detect_calls st')
       = update_points (fc_update_interval c) (seen + length frames).
Proof.
  intros Hui. induction frames as [|frame frames IH]; intros seen st Hidx Hcalls.
  - cbn. rewrite app_nil_r, Nat.add_0_r. auto.
  - cbn [fold_left length map].
    destruct (face_step_effects c st frame) as (E1 & E2 & E3 & _).
    rewrite <- Nat.add_succ_comm.
    destruct (IH (S seen) (face_step frame_shape detect c st frame)) as [W D].
    + rewrite E1, Hidx. lia.
    + rewrite E3, Hidx.
      destruct (Z.eqb_spec (Z.of_nat seen mod fc_update_interval c) 0) as [E|E].
      * rewrite update_points_hit by assumption. lia.
      * rewrite update_points_miss by assumption. exact Hcalls.
    + split; [|exact D]. rewrite W, E2, <- app_assoc. reflexivity.
Qed.

(** X12: whenever [crop_face_tracking] succeeds, in either of its two
    paths, it writes exactly one frame per frame read, each of exactly the
    target size. *)
Theorem face_planner_writes_target_size (cap : Video Frame) (r : FaceRun) :
  crop_face_tracking frame_shape detect (Some cap) = Ok r ->
  exists target_width target_height,
    face_geometry (cap_width cap) (cap_height cap)
    = Ok (target_width, target_height)
    /\ run_written r
       = map (fun _ => (target_width, target_height)) (cap_frames cap).
Proof.
  unfold crop_face_tracking, face_geometry.
  destruct (ensure_valid_dimensions _ _) as [[]|msg]; cbn [bind]; [|discriminate].
  destruct (face_target_size _ _) as [[tw th]|msg]; cbn [bind]; [|discriminate].
  destruct (cap_width cap <=? tw).
  - intros [= <-]. exists tw, th. split; [reflexivity|].
    cbn [run_written]. now rewrite passthrough_written.
  - intros [= <-]. exists tw, th. split; [reflexivity|].
    cbn [run_written].
    set (c := face_config (cap_width cap) (cap_height cap) tw th (resolve_fps cap)).
    destruct (face_run_effects c (cap_frames cap) ltac:(cbn; lia) 0%nat
                (face_init (cap_width cap)) eq_refl) as [W _].
    + cbn [face_init detect_calls Z.of_nat].
      symmetry. apply update_points_zero. cbn. lia.
    + exact W.
Qed.

(** X13: on the tracking path the detector runs on the frames whose index
    is a multiple of [update_interval = max(1, int(fps * 0.5))] and on no
    other: for n frames it is called ceil(n / update_interval) times. *)
Theorem face_planner_detector_calls (cap : Video Frame) (r : FaceRun)
    (st : FaceState) :
  crop_face_tracking frame_shape detect (Some cap) = Ok r ->
  run_tracking r = Some st ->
  Z.of_nat (run_detect_calls r)
  = update_points (Z.max 1 (py_int (resolve_fps cap * (1 # 2))))
                  (length (cap_frames cap)).
Proof.
  unfold crop_face_tracking.
  destruct (ensure_valid_dimensions _ _) as [[]|msg]; cbn [bind]; [|discriminate].
  destruct (face_target_size _ _) as [[tw th]|msg]; cbn [bind]; [|discriminate].
  destruct (cap_width cap <=? tw).
  - intros [= <-]. discriminate.
  - intros [= <-] _. cbn [run_detect_calls].
    set (c := face_config (cap_width cap) (cap_height cap) tw th (resolve_fps cap)).
    destruct (face_run_effects c (cap_frames cap) ltac:(cbn; lia) 0%nat
                (face_init (cap_width cap)) eq_refl) as [_ D].
    + cbn [face_init detect_calls Z.of_nat].
      symmetry. apply update_points_zero. cbn. lia.
    + exact D.
Qed.

(** X14: every frame closes between 5% and 30% of the gap between the
    smoothed centre and the (clamped) target, and never overshoots: with
    [alpha = min(0.3, max(0.05, 5 / fps))], the gap after the frame is
    (1 - alpha) times the gap to the new target before it. *)
Theorem face_smoothing_contracts (width height target_width target_height : Z)
    (fps : Q) (st : FaceState) (frame : Frame) :
  let c := face_config width height target_width target_height fps in
  let st' := face_step frame_shape detect c st frame in
  let gap := (target_center st' - smoothed_center st)%Q in
  let gap' := (target_center st' - smoothed_center st')%Q in
  (gap' == (1 - fc_smoothing c) * gap)%Q
  /\ ((70 # 100) * Qabs gap <= Qabs gap' <= (95 # 100) * Qabs gap)%Q.
Proof.
  intros c st' gap gap'.
  destruct (face_step_effects c st frame) as (_ & _ & _ & Hs).
  fold st' in Hs.
  assert (Hgap : (gap' == (1 - fc_smoothing c) * gap)%Q).
  { unfold gap', gap. rewrite Hs. ring. }
  split; [exact Hgap|].
  pose proof (smoothing_bounds fps) as Ha.
  change (Qmin (3 # 10) (Qmax (5 # 100) (5 / fps))) with (fc_smoothing c) in Ha.
  rewrite Hgap, Qabs_Qmult.
  rewrite (Qabs_pos (1 - fc_smoothing c)) by lra.
  pose proof (Qabs_nonneg gap) as Hg.
  split; apply Qmult_le_compat_r; lra.
Qed.

(** For a rate of at least 2 frames per second the threshold is at least
    four update intervals. *)
Lemma threshold_four_intervals (width height target_width target_height : Z)
    (fps : Q) :
  (2 <= fps)%Q ->
  let c := face_config width height target_width target_height fps in
  4 * fc_update_interval c <= fc_missing_threshold c.
Proof.
  intros Hfps c. cbn [c face_config fc_update_interval fc_missing_threshold].
  unfold MISSING_FACE_SECONDS.
  rewrite !py_int_nonneg by lra.
  assert (H1 : 1 <= Qfloor (fps * (1 # 2))).
  { assert (Hhalf : (1 <= fps * (1 # 2))%Q) by lra.
    rewrite <- (Qfloor_Z 1). apply Qfloor_resp_le. exact Hhalf. }
  rewrite Z.max_r by lia.
  rewrite <- (Qfloor_Z (4 * Qfloor (fps * (1 # 2)))).
  apply Qfloor_resp_le. rewrite inject_Z_mult.
  pose proof (Qfloor_le (fps * (1 # 2))) as Hf.
  change (inject_Z 4) with 4%Q. lra.
Qed.

(** X15: at 2 frames per second or more, losing the face at up to three
    consecutive update points does not move the target: over a run that
    starts at an update point with a zero count and has at most three
    update points, all without a usable face, [target_center] ends as it
    started. *)
Theorem short_dropout_keeps_target (width height target_width target_height : Z)
    (fps : Q) (st : FaceState) (frames : list Frame) :
  let c := face_config width height target_width target_height fps in
  (2 <= fps)%Q ->
  target_width <= width ->
  missing_frames st = 0 ->
  frame_idx st mod fc_update_interval c = 0 ->
  center_range c (target_center st) ->
  empty_update_points detect c (frame_idx st) frames ->
  update_points (fc_update_interval c) (length frames) <= 3 ->
  (target_center (fold_left (face_step frame_shape detect c) frames st)
   == target_center st)%Q.
Proof.
  intros c Hfps Hw Hzero Hidx Hrange Hempty Hfew.
  assert (Hui : 1 <= fc_update_interval c) by (cbn; lia).
  pose proof (threshold_four_intervals width height target_width target_height
                fps Hfps) as Hthr. cbv zeta in Hthr. fold c in Hthr.
  destruct (empty_updates_invariant frame_shape detect c st frames Hui Hw Hidx
              Hrange 0%nat st) as [_ Htgt].
  - cbn [Z.of_nat]. lia.
  - rewrite update_points_zero by exact Hui. split; [lia | reflexivity].
  - exact Hempty.
  - cbn [Nat.add] in Htgt. rewrite Htgt, Hzero.
    set (n := update_points (fc_update_interval c) (length frames)) in *.
    assert (Hn : n * fc_update_interval c <= 3 * fc_update_interval c)
      by (apply Z.mul_le_mono_nonneg_r; lia).
    replace (fc_missing_threshold c <=? 0 + n * fc_update_interval c)
      with false by (symmetry; apply Z.leb_gt; lia).
    rewrite andb_false_r. reflexivity.
Qed.

End FacePlannerMore.

Lemma face_planner_writes_target_size_witness :
  exists target_width target_height,
    face_geometry (cap_width (slow_video 5)) (cap_height (slow_video 5))
    = Ok (target_width, target_height)
    /\ run_written (slow_run 5)
       = map (fun _ => (target_width, target_height))
             (cap_frames (slow_video 5)).
Proof.
  apply (face_planner_writes_target_size boxes_shape boxes_detect
           (slow_video 5) (slow_run 5)).
  vm_compute. reflexivity.
Defined.

Lemma face_planner_detector_calls_witness :
  Z.of_nat (run_detect_calls (slow_run 18))
  = update_points (Z.max 1 (py_int (resolve_fps (slow_video 18) * (1 # 2))))
                  (length (cap_frames (slow_video 18))).
Proof.
  apply (face_planner_detector_calls boxes_shape boxes_detect
           (slow_video 18) (slow_run 18) (slow_state 18)).
  - vm_compute. reflexivity.
  - reflexivity.
Defined.

Lemma short_dropout_keeps_target_witness :
  (target_center
     (fold_left (face_step boxes_shape boxes_detect slow_config)
                (repeat [] 18) (slow_state 5))
   == target_center (slow_state 5))%Q.
Proof.
  apply (short_dropout_keeps_target boxes_shape boxes_detect
           1920 1080 606 1080 (99 # 8) (slow_state 5) (repeat [] 18)).
  - vm_compute. discriminate.
  - lia.
  - vm_compute. reflexivity.
  - vm_compute. reflexivity.
  - vm_compute. split; discriminate.
  - intros k frame Hk _. apply nth_error_repeat_nil in Hk. now subst frame.
  - vm_compute. discriminate.
Defined.

(** * Further properties of the motion-tracking planner *)

Lemma blend_floor (s t : Z) :
  0 <= s -> 0 <= t ->
  py_int ((9 # 10) * inject_Z s + (1 # 10) * inject_Z t) = (9 * s + t) / 10.
Proof.
  intros Hs Ht.
  assert (E : ((9 # 10) * inject_Z s + (1 # 10) * inject_Z t
               == truediv (9 * s + t) 10)%Q).
  { unfold truediv. rewrite inject_Z_plus, inject_Z_mult.
    change (inject_Z 9) with 9%Q. change (inject_Z 10) with 10%Q. field. }
  rewrite (py_int_comp _ _ E). apply py_int_truediv; lia.
Qed.

Lemma motion_target_x_range (c : ScreenConfig) (col : list Q) :
  0 <= motion_target_x c col
       <= Z.max 0 (sc_scaled_width c - sc_target_width c).
Proof. unfold motion_target_x. lia. Qed.

Lemma motion_update_range (c : ScreenConfig) (s : Z)
    (magnitude : list (list Q)) :
  0 <= s <= Z.max 0 (sc_scaled_width c - sc_target_width c) ->
  0 <= motion_update c s magnitude
       <= Z.max 0 (sc_scaled_width c - sc_target_width c).
Proof.
  intros Hs. unfold motion_update.
  destruct (any_significant magnitude); [|exact Hs].
  destruct (Qlt_bool 0 _); [|exact Hs].
  pose proof (motion_target_x_range c
                (col_motion (sc_scaled_width c) magnitude)) as Ht.
  set (t := motion_target_x c _) in *.
  rewrite blend_floor by lia.
  split.
  - apply Z.div_pos; lia.
  - apply Z.div_le_upper_bound; lia.
Qed.

(** X19: the scaled height never exceeds the target height (the second
    scale makes it equal), so the vertical fit of the screen planner is the
    letterbox or nothing: the branch that crops the top rows is never
    taken. *)
Theorem scaled_height_fits (width height target_width target_height : Z) :
  0 < height ->
  snd (screen_scaled_size width height target_width target_height)
  <= target_height.
Proof.
  intros Hh. unfold screen_scaled_size.
  destruct (Z.gtb_spec
              (py_int (inject_Z height
                       * truediv target_width
                                 (py_int (inject_Z width * (67 # 100)))))
              target_height) as [Hgt|Hle]; cbn [snd]; [|exact Hle].
  assert (E : (inject_Z height * truediv target_height height
               == inject_Z target_height)%Q).
  { unfold truediv. field.
    pose proof (inject_Z_pos height Hh). lra. }
  rewrite (py_int_comp _ _ E), py_int_inject_Z. lia.
Qed.

Lemma scaled_height_fits_witness :
  snd (screen_scaled_size 1920 1080 606 1080) <= 1080.
Proof. apply (scaled_height_fits 1920 1080 606 1080). lia. Defined.

Section ScreenPlannerMore.

Context {Frame Gray : Type}.
Variable to_gray : Z -> Z -> Frame -> Gray.
Variable flow_magnitude : Gray -> Gray -> list (list Q).

Lemma screen_step_in_range (c : ScreenConfig) (st : ScreenState Gray)
    (frame : Frame) :
  pan_in_range c st ->
  let st' := screen_step to_gray flow_magnitude c st frame in
  pan_in_range c st'
  /\ screen_crops st' = screen_crops st ++ [smoothed_x st']
  /\ screen_frame_idx st' = screen_frame_idx st + 1.
Proof.
  intros [Hx Hcrops]. unfold screen_step, pan_in_range.
  cbn [smoothed_x screen_crops screen_frame_idx].
  set (s' := if _ =? 0 then _ else _).
  assert (Hs' : 0 <= s' <= Z.max 0 (sc_scaled_width c - sc_target_width c)).
  { unfold s'. destruct (_ =? 0); [|exact Hx].
    destruct (prev_gray st); [|exact Hx].
    now apply motion_update_range. }
  assert (Hclamp : Z.max 0 (Z.min s' (sc_scaled_width c - sc_target_width c)) = s')
    by lia.
  rewrite Hclamp. split; [|split; reflexivity].
  split; [exact Hs'|].
  apply Forall_app. split; [exact Hcrops|]. constructor; [exact Hs' | constructor].
Qed.

Lemma screen_loop_in_range (c : ScreenConfig) (frames : list Frame)
    (st : ScreenState Gray) :
  pan_in_range c st ->
  Z.of_nat (length (screen_crops st)) = screen_frame_idx st ->
  let st' := screen_loop to_gray flow_magnitude c frames st in
  pan_in_range c st'
  /\ Z.of_nat (length (screen_crops st')) = screen_frame_idx st'
  /\ screen_frame_idx st'
     = if sc_total_frames c =? 0
       then screen_frame_idx st + Z.of_nat (length frames)
       else Z.min (screen_frame_idx st + Z.of_nat (length frames))
                  (Z.max (screen_frame_idx st
                          + match frames with [] => 0 | _ :: _ => 1 end) (sc_total_frames c)).
Proof.
  revert st. induction frames as [|frame frames IH]; intros st Hrange Hlen;
    cbn [screen_loop length].
  - split; [exact Hrange|]. split; [exact Hlen|].
    destruct (_ =? 0); lia.
  - destruct (screen_step_in_range c st frame Hrange) as (Hr & Hc & Hi).
    set (st1 := screen_step to_gray flow_magnitude c st frame) in *.
    assert (Hlen1 : Z.of_nat (length (screen_crops st1)) = screen_frame_idx st1).
    { rewrite Hc, Hi, length_app. cbn [length]. lia. }
    destruct (Z.eqb_spec (sc_total_frames c) 0) as [E0|E0]; cbn [negb andb].
    + destruct (IH st1 Hr Hlen1) as (R & L & I).
      split; [exact R|]. split; [exact L|].
      rewrite I, Hi. destruct (Z.eqb_spec (sc_total_frames c) 0); lia.
    + destruct (Z.geb_spec (screen_frame_idx st1) (sc_total_frames c)) as [Hge|Hlt].
      * split; [exact Hr|]. split; [exact Hlen1|]. lia.
      * destruct (IH st1 Hr Hlen1) as (R & L & I).
        split; [exact R|]. split; [exact L|].
        rewrite I, Hi. destruct (Z.eqb_spec (sc_total_frames c) 0); [lia|].
        destruct frames; cbn [length]; lia.
Qed.

(** X16: the pan of the screen planner never leaves
    [0, max(0, scaled_width - target_width)]: after any frames, [smoothed_x]
    and every crop offset used are in that range, so the clamp of line 469
    never changes the offset. *)
Theorem screen_pan_in_range (c : ScreenConfig) (frames : list Frame) :
  let st := screen_loop to_gray flow_magnitude c frames screen_init in
  let bound := Z.max 0 (sc_scaled_width c - sc_target_width c) in
  0 <= smoothed_x st <= bound
  /\ Forall (fun x => 0 <= x <= bound) (screen_crops st).
Proof.
  intros st bound.
  destruct (screen_loop_in_range c frames screen_init) as (H & _).
  - split; [cbn; lia | constructor].
  - reflexivity.
  - exact H.
Qed.


(** X18: at an update with significant motion the new pan is
    floor((9 * smoothed_x + target_x) / 10): it lies between the old pan and
    the target, a target less than 10 pixels to the right leaves the pan
    where it is, and a target to the left always moves it. *)
Theorem pan_update_floor (c : ScreenConfig) (smoothed : Z)
    (magnitude : list (list Q)) :
  field_of_width c magnitude ->
  any_significant magnitude = true ->
  0 <= smoothed ->
  let target_x := motion_target_x c (col_motion (sc_scaled_width c) magnitude) in
  let new := motion_update c smoothed magnitude in
  new = (9 * smoothed + target_x) / 10
  /\ (smoothed <= target_x -> smoothed <= new <= target_x)
  /\ (smoothed <= target_x < smoothed + 10 -> new = smoothed)
  /\ (target_x < smoothed -> target_x <= new < smoothed).
Proof.
  intros Hshape Hany Hs target_x new.
  pose proof (motion_target_x_range c
                (col_motion (sc_scaled_width c) magnitude)) as Ht.
  fold target_x in Ht.
  assert (E : new = (9 * smoothed + target_x) / 10).
  { unfold new, motion_update. rewrite Hany.
    pose proof (significant_col_motion c magnitude Hshape Hany) as Hpos.
    apply Qlt_bool_iff in Hpos. rewrite Hpos.
    fold target_x. apply blend_floor; lia. }
  split; [exact E|].
  pose proof (Z.div_mod (9 * smoothed + target_x) 10 ltac:(lia)) as Hdm.
  pose proof (Z.mod_pos_bound (9 * smoothed + target_x) 10 ltac:(lia)) as Hm.
  rewrite <- E in Hdm.
  repeat split; intros; lia.
Qed.

End ScreenPlannerMore.

Lemma pan_update_floor_witness :
  let magnitude := corner_motion tt tt in
  let target_x :=
    motion_target_x tiny_config (col_motion (sc_scaled_width tiny_config) magnitude) in
  let new := motion_update tiny_config 0 magnitude in
  new = (9 * 0 + target_x) / 10
  /\ (0 <= target_x -> 0 <= new <= target_x)
  /\ (0 <= target_x < 0 + 10 -> new = 0)
  /\ (target_x < 0 -> target_x <= new < 0).
Proof.
  apply (pan_update_floor tiny_config 0 (corner_motion tt tt)).
  - repeat constructor.
  - reflexivity.
  - lia.
Defined.
